(** * StoryPath: the location unlock engine of the project home screen

    A shallow embedding of the code that decides how locations are unlocked
    ([components/ProjectHomeScreen.jsx]) and how a score is derived from the
    visited locations ([api/api.js]), together with the properties proved
    about it.

    The screen is a single-threaded JavaScript program: every handler runs
    until its next [await], and the awaited operation settles later, with
    other handlers running in between.  The embedding keeps that shape: a
    state record, a list of suspended [async] calls, and one transition per
    event of the event loop. *)

From Stdlib Require Import ZArith QArith Qabs Ascii String List Bool Lia.
From stdpp Require Import base decidable option list gmap strings sets.

Open Scope Z_scope.

(** ** JavaScript values that the screen manipulates *)

Module JS.

(** A JavaScript number.  Finite values are kept as exact rationals: the only
    consumer of coordinates is the distance function of the [geolib] package,
    which the development takes as a parameter, so no binary64 rounding is
    modelled. *)
Inductive number : Type :=
| NaN
| Infinity (negative : bool)
| Finite (q : Q).

(** The values a property read can yield here. *)
Inductive value : Type :=
| Undefined
| Null
| Num (n : number).

(** [v == null] *)
Definition loosely_null (v : value) : bool :=
  match v with
  | Undefined | Null => true
  | Num _ => false
  end.

(** [!v] for the values above: [NaN] and zero are falsy. *)
Definition falsy (v : value) : bool :=
  match v with
  | Undefined | Null => true
  | Num NaN => true
  | Num (Infinity _) => false
  | Num (Finite q) => Qeq_bool q 0
  end.

(** [a <= b] on numbers; any comparison with [NaN] is false. *)
Definition le (a b : number) : bool :=
  match a, b with
  | NaN, _ | _, NaN => false
  | Infinity true, _ => true
  | _, Infinity false => true
  | Infinity false, _ => false
  | _, Infinity true => false
  | Finite x, Finite y => Qle_bool x y
  end.

Definition of_Z (z : Z) : number := Finite (inject_Z z).

(** *** Strings as sequences of code units *)

Definition chars (s : string) : list ascii := list_ascii_of_string s.
Definition text (l : list ascii) : string := string_of_list_ascii l.

Definition code (c : ascii) : Z := Z.of_nat (nat_of_ascii c).

(** [s.replace(/[()]/g, "")] *)
Definition strip_parens (s : string) : string :=
  text (List.filter (fun c => negb ((code c =? 40) || (code c =? 41))) (chars s)).

(** [s.split(",")]: always at least one piece. *)
Fixpoint split_chars (sep : Z) (cur : list ascii) (l : list ascii) : list string :=
  match l with
  | [] => [text (rev cur)]
  | c :: rest =>
      if code c =? sep then text (rev cur) :: split_chars sep [] rest
      else split_chars sep (c :: cur) rest
  end.

Definition split_comma (s : string) : list string := split_chars 44 [] (chars s).

(** [s.toLowerCase()] on the ASCII letters. *)
Definition lower_char (c : ascii) : ascii :=
  if (65 <=? code c) && (code c <=? 90)
  then ascii_of_nat (nat_of_ascii c + 32) else c.

Definition toLowerCase (s : string) : string := text (List.map lower_char (chars s)).

(** [arr[i]] *)
Definition index (arr : list number) (i : nat) : value :=
  match nth_error arr i with
  | Some n => Num n
  | None => Undefined
  end.

(** *** [Number(s)] on a string: the StringToNumber grammar *)

Definition is_space (c : ascii) : bool :=
  let n := code c in
  (n =? 9) || (n =? 10) || (n =? 11) || (n =? 12) || (n =? 13) || (n =? 32).

Fixpoint trim_start (l : list ascii) : list ascii :=
  match l with
  | c :: rest => if is_space c then trim_start rest else l
  | [] => []
  end.

Definition trim (l : list ascii) : list ascii :=
  rev (trim_start (rev (trim_start l))).

(** The value of a digit in the given radix, if it is one. *)
Definition digit_value (radix : Z) (c : ascii) : option Z :=
  let n := code c in
  let v :=
    if (48 <=? n) && (n <=? 57) then Some (n - 48)
    else if (97 <=? n) && (n <=? 122) then Some (n - 87)
    else if (65 <=? n) && (n <=? 90) then Some (n - 55)
    else None in
  match v with
  | Some d => if d <? radix then Some d else None
  | None => None
  end.

(** Reads the longest run of digits: its value, its length, the rest. *)
Fixpoint digits (radix : Z) (acc : Z) (count : nat) (l : list ascii)
  : Z * nat * list ascii :=
  match l with
  | c :: rest =>
      match digit_value radix c with
      | Some d => digits radix (acc * radix + d) (S count) rest
      | None => (acc, count, l)
      end
  | [] => (acc, count, [])
  end.

(** [m * 10^e] *)
Definition scale10 (m : Z) (e : Z) : Q :=
  if 0 <=? e then inject_Z (m * 10 ^ e)
  else Qmake m (Z.to_pos (10 ^ (- e))).

(** ExponentPart, optional: the exponent, provided nothing follows it. *)
Definition exponent (l : list ascii) : option Z :=
  match l with
  | [] => Some 0
  | c :: rest =>
      if (code c =? 101) || (code c =? 69) then
        let '(neg, body) :=
          match rest with
          | s :: more =>
              if code s =? 45 then (true, more)
              else if code s =? 43 then (false, more)
              else (false, rest)
          | [] => (false, rest)
          end in
        match digits 10 0 0 body with
        | (e, S _, []) => Some (if neg then - e else e)
        | _ => None
        end
      else None
  end.

(** StrUnsignedDecimalLiteral *)
Definition unsigned_decimal (l : list ascii) : number :=
  if String.eqb (text l) "Infinity" then Infinity false
  else
    let '(ip, n1, r1) := digits 10 0 0 l in
    let '(m, n2, r2) :=
      match r1 with
      | c :: frac =>
          if code c =? 46 then
            let '(m, n2, r2) := digits 10 ip 0 frac in (m, n2, r2)
          else (ip, O, r1)
      | [] => (ip, O, r1)
      end in
    match (n1 + n2)%nat, exponent r2 with
    | S _, Some e => Finite (scale10 m (e - Z.of_nat n2))
    | _, _ => NaN
    end.

Definition negate (n : number) : number :=
  match n with
  | NaN => NaN
  | Infinity b => Infinity (negb b)
  | Finite q => Finite (Qopp q)
  end.

(** NonDecimalIntegerLiteral: [0x..], [0o..], [0b..] *)
Definition non_decimal (l : list ascii) : option number :=
  match l with
  | z :: p :: body =>
      if code z =? 48 then
        let radix :=
          if (code p =? 120) || (code p =? 88) then Some 16
          else if (code p =? 111) || (code p =? 79) then Some 8
          else if (code p =? 98) || (code p =? 66) then Some 2
          else None in
        match radix with
        | Some r =>
            match digits r 0 0 body with
            | (v, S _, []) => Some (of_Z v)
            | _ => Some NaN
            end
        | None => None
        end
      else None
  | _ => None
  end.

Definition Number (s : string) : number :=
  match trim (chars s) with
  | [] => of_Z 0
  | (c :: rest) as l =>
      match non_decimal l with
      | Some n => n
      | None =>
          if code c =? 45 then negate (unsigned_decimal rest)
          else if code c =? 43 then unsigned_decimal rest
          else unsigned_decimal l
      end
  end.

End JS.

(** ** The records served by the REST backend *)

(** A row of [/project]; [participant_scoring] carries the scoring mode. *)
Record Project : Type := {
  title : string;
  instructions : string;
  homescreen_display : string;
  initial_clue : option string;
  participant_scoring : string
}.

(** A row of [/location] as the backend returns it. *)
Record RawLocation : Type := {
  id : Z;
  location_name : string;
  location_position : option string;
  score_points : option Z;
  clue : option string;
  location_content : option string
}.

(** A [{latitude, longitude}] object: what [parsePositionString] returns,
    the [coords] of a fix of the device, an argument of [getDistance]. *)
Record Coordinates : Type := {
  latitude : JS.value;
  longitude : JS.value
}.

(** A location of the screen's state: [{...loc, ...parsePositionString(..)}]. *)
Record Location : Type := {
  raw :> RawLocation;
  position :> Coordinates
}.

(** How an awaited operation settles. *)
Inductive outcome (A : Type) : Type :=
| Fulfilled (a : A)
| Rejected.
Arguments Fulfilled {A} a.
Arguments Rejected {A}.

(** [x || 0] and [Number(x) || 0] on a point value that is a number or null. *)
Definition or_zero (x : option Z) : Z :=
  match x with
  | Some n => n
  | None => 0
  end.

(** [new Set(array)], [Array.from(set)], [set.has(x)], [array.includes(x)].
    A JavaScript [Set] lists its members in insertion order; [elements] lists
    them in an order of its own.  Only the members of the stored array are
    ever read back ([new Set(JSON.parse(..))], [includes]), never their
    order. *)
Definition new_Set (array : list Z) : gset Z := list_to_set array.
Definition Array_from (set : gset Z) : list Z := elements set.
Definition has (set : gset Z) (x : Z) : bool := bool_decide (x ∈ set).
Definition includes (array : list Z) (x : Z) : bool := bool_decide (x ∈ array).

(** ** api/api.js *)

Module Api.

(** The scoring modes of the specification. *)
Inductive ScoringMode : Type := Sequence | Points.

(** The mode that [getTotalPoints] reads off [participant_scoring]. *)
Definition scoring_mode (p : Project) : option ScoringMode :=
  let scoringType := JS.toLowerCase (participant_scoring p) in
  if String.eqb scoringType "sequence"
     || String.eqb scoringType "number of locations entered"
  then Some Sequence
  else if String.eqb scoringType "points" then Some Points
  else None.

(** [getTotalPoints(projectId, visitedArray)].  Its two requests are reads;
    their results are the first two arguments ([getLocations] is only
    awaited in the points branch). *)
Definition getTotalPoints
    (project : outcome (list Project))
    (locations : outcome (list RawLocation))
    (visitedArray : list Z) : outcome Z :=
  match project with
  | Rejected => Rejected
  | Fulfilled [] => Rejected
  | Fulfilled (p0 :: _) =>
      let scoringType := JS.toLowerCase (participant_scoring p0) in
      if String.eqb scoringType "sequence"
         || String.eqb scoringType "number of locations entered"
      then Fulfilled (Z.of_nat (length visitedArray))
      else if String.eqb scoringType "points" then
        match locations with
        | Rejected => Rejected
        | Fulfilled locations =>
            let visitedLocations :=
              List.filter (fun loc => includes visitedArray (id loc)) locations in
            let totalPoints :=
              fold_left (fun acc loc => acc + or_zero (score_points loc))
                        visitedLocations 0 in
            Fulfilled totalPoints
        end
      else Fulfilled 0
  end.

(** ScoreTotal in the words of the specification: the sum of the point values
    of the locations in the visited set, or the number of its members. *)
Definition ScoreTotal (mode : ScoringMode) (locations : list RawLocation)
    (visited : gset Z) : Z :=
  match mode with
  | Points =>
      foldr Z.add 0
        (List.map (fun loc => or_zero (score_points loc))
           (List.filter (fun loc => bool_decide (id loc ∈ visited)) locations))
  | Sequence => Z.of_nat (size visited)
  end.

(** The requests that the screen sends. *)
Inductive Method : Type := GET | POST.

Inductive Request : Type :=
| get_project (projectId : string)      (* GET /project?id=eq.<projectId> *)
| get_locations (projectId : string)    (* GET /location?project_id=eq.<projectId> *)
| get_location (locationId : Z)         (* GET /location?id=eq.<locationId> *)
| post_tracking (trackingData : Z).     (* POST /tracking *)

Definition method (r : Request) : Method :=
  match r with
  | get_project _ | get_locations _ | get_location _ => GET
  | post_tracking _ => POST
  end.

End Api.

(** ** components/ProjectHomeScreen.jsx *)

Module Screen.
Import Api.

Definition parsePositionString (positionString : option string) : Coordinates :=
  match positionString with
  | None => {| latitude := JS.Null; longitude := JS.Null |}
  | Some s =>
      if String.eqb s "" then {| latitude := JS.Null; longitude := JS.Null |}
      else
        let coords := List.map JS.Number (JS.split_comma (JS.strip_parens s)) in
        {| latitude := JS.index coords 0; longitude := JS.index coords 1 |}
  end.

(** The callback of [allLocations.map] in [fetchData]. *)
Definition withCoords (loc : RawLocation) : Location :=
  {| raw := loc; position := parsePositionString (location_position loc) |}.

(** [calculatePoints], the effect on [visitedLocations] and [locations]. *)
Definition calculatePoints (locations : list Location) (visitedLocations : gset Z) : Z :=
  fold_left
    (fun sum (loc : Location) =>
       if has visitedLocations (id loc) then sum + or_zero (score_points loc)
       else sum)
    locations 0.

Definition PROXIMITY_RADIUS : JS.number := JS.of_Z 50.

(** [Alert.alert(title, message)] *)
Record Alert : Type := { alert_title : string; alert_message : string }.

(** Who awaits a call of [handleLocationVisit]: [handleLocationUpdate], which
    clears [processingRef] when the call returns, or nobody (a direct call). *)
Inductive Caller : Type := Direct | FromLocationUpdate.

(** An [async] call suspended at an [await], named after the operation
    awaited. *)
Inductive Suspended : Type :=
| Visit_setItem (caller : Caller) (location : Location) (updatedVisitedArray : list Z)
| Visit_updateLocationVisit (caller : Caller) (location : Location)
| Visit_createTracking (caller : Caller) (location : Location)
| Reset_removeItem
| Fetch_getProject
| Fetch_getLocations
| Fetch_getItem.

(** The state of the mounted screen with the two stores it talks to.  The
    states [loading] and [pointsPossible] only feed the rendering and are left
    out; [points] is recomputed by an effect and is a function of the state
    (see [points] below).  The handlers read the visited set through
    [visitedLocationsRef] only; the effect that copies [visitedLocations] into
    it after a render is the event [Commit]. *)
Record State : Type := mkState {
  project : option Project;
  locations : list Location;
  visitedLocations : gset Z;
  visitedLocationsRef : gset Z;
  processingRef : bool;
  currentLocationContent : option string;
  storage : gmap string (list Z);    (* AsyncStorage; values are JSON arrays *)
  requests : list Request;           (* requests sent to the backend *)
  alerts : list Alert;
  pending : list Suspended
}.

Definition points (s : State) : Z := calculatePoints (locations s) (visitedLocations s).

Definition setProject v s :=
  mkState v (locations s) (visitedLocations s) (visitedLocationsRef s) (processingRef s)
    (currentLocationContent s) (storage s) (requests s) (alerts s) (pending s).
Definition setLocations v s :=
  mkState (project s) v (visitedLocations s) (visitedLocationsRef s) (processingRef s)
    (currentLocationContent s) (storage s) (requests s) (alerts s) (pending s).
Definition setVisitedLocations v s :=
  mkState (project s) (locations s) v (visitedLocationsRef s) (processingRef s)
    (currentLocationContent s) (storage s) (requests s) (alerts s) (pending s).
Definition set_visitedLocationsRef v s :=
  mkState (project s) (locations s) (visitedLocations s) v (processingRef s)
    (currentLocationContent s) (storage s) (requests s) (alerts s) (pending s).
Definition set_processingRef v s :=
  mkState (project s) (locations s) (visitedLocations s) (visitedLocationsRef s) v
    (currentLocationContent s) (storage s) (requests s) (alerts s) (pending s).
Definition setCurrentLocationContent v s :=
  mkState (project s) (locations s) (visitedLocations s) (visitedLocationsRef s)
    (processingRef s) v (storage s) (requests s) (alerts s) (pending s).
Definition set_storage v s :=
  mkState (project s) (locations s) (visitedLocations s) (visitedLocationsRef s)
    (processingRef s) (currentLocationContent s) v (requests s) (alerts s) (pending s).
Definition send (r : Request) s :=
  mkState (project s) (locations s) (visitedLocations s) (visitedLocationsRef s)
    (processingRef s) (currentLocationContent s) (storage s) (requests s ++ [r])
    (alerts s) (pending s).
Definition alert (t m : string) s :=
  mkState (project s) (locations s) (visitedLocations s) (visitedLocationsRef s)
    (processingRef s) (currentLocationContent s) (storage s) (requests s)
    (alerts s ++ [{| alert_title := t; alert_message := m |}]) (pending s).
Definition set_pending v s :=
  mkState (project s) (locations s) (visitedLocations s) (visitedLocationsRef s)
    (processingRef s) (currentLocationContent s) (storage s) (requests s) (alerts s) v.

(** Suspend a new call, replace a suspended call by its next [await], or
    drop a call that returned. *)
Definition suspend (k : Suspended) s := set_pending (pending s ++ [k]) s.
Definition continue (i : nat) (k : Suspended) s := set_pending (<[i := k]> (pending s)) s.
Definition finish (i : nat) s := set_pending (delete i (pending s)) s.

(** What the event loop delivers. *)
Inductive Event : Type :=
| PositionUpdate (coords : Coordinates)           (* the [watchPositionAsync] callback *)
| ManualVisit (location : Location)               (* [handleLocationVisit] called directly *)
| PressReset                                      (* the reset button *)
| Commit                                          (* the effect copying the state into the ref *)
| SetItemSettled (i : nat) (ok : bool)
| UpdateLocationVisitSettled (i : nat) (r : outcome (list RawLocation))
| CreateTrackingSettled (i : nat) (ok : bool)
| RemoveItemSettled (i : nat) (ok : bool)
| GetProjectSettled (i : nat) (r : outcome (list Project))
| GetLocationsSettled (i : nat) (r : outcome (list RawLocation))
| GetItemSettled (i : nat) (ok : bool).

(** The events that settle an [await] of [handleLocationVisit]. *)
Definition settles_visit (e : Event) : bool :=
  match e with
  | SetItemSettled _ _ | UpdateLocationVisitSettled _ _ | CreateTrackingSettled _ _ => true
  | _ => false
  end.

(** The ways in which the remote recording of a visit fails: the request for
    the location is rejected, or finds no location, or the tracking request
    is rejected. *)
Inductive RemoteFailure : Type :=
| LocationRequestRejected
| LocationNotFound
| TrackingRequestRejected (found : RawLocation) (others : list RawLocation).

(** The settlements of the suspended call [i] that make up such a failure. *)
Definition remote_failure (i : nat) (f : RemoteFailure) : list Event :=
  match f with
  | LocationRequestRejected => [UpdateLocationVisitSettled i Rejected]
  | LocationNotFound => [UpdateLocationVisitSettled i (Fulfilled [])]
  | TrackingRequestRejected found others =>
      [UpdateLocationVisitSettled i (Fulfilled (found :: others));
       CreateTrackingSettled i false]
  end.

(** The suspended calls that [handleLocationUpdate] is waiting for. *)
Definition awaited_by_update (k : Suspended) : bool :=
  match k with
  | Visit_setItem FromLocationUpdate _ _
  | Visit_updateLocationVisit FromLocationUpdate _
  | Visit_createTracking FromLocationUpdate _ => true
  | _ => false
  end.

(** The identifiers of the locations that belong to the project. *)
Definition identifiers (directory : list RawLocation) : gset Z :=
  list_to_set (List.map id directory).

(** The events of a session over a project whose locations are [directory]:
    the backend answers with them, and a direct visit is given one of them. *)
Definition of_directory (directory : list RawLocation) (e : Event) : Prop :=
  match e with
  | GetLocationsSettled _ (Fulfilled allLocations) => allLocations = directory
  | ManualVisit location => id location ∈ identifiers directory
  | _ => True
  end.

(** The alerts of the two ends of [handleLocationVisit]. *)
Definition unlock_alert (location : Location) : Alert :=
  {| alert_title := "Location Unlock";
     alert_message := "You have unlocked " ++ location_name location ++ "!" |}.

Definition visit_error_alert : Alert :=
  {| alert_title := "Error";
     alert_message := "Unable to process location access. Please try again later." |}.

(** The outcome of the loop of [handleLocationUpdate]: the locations whose
    distance was computed, in order, and the location it stopped at. *)
Record Scan : Type := { measured : list Location; hit : option Location }.

Section Engine.

(** [getDistance] of the [geolib] package, and the [projectId] of the route. *)
Variable getDistance : Coordinates -> Coordinates -> JS.number.
Variable projectId : string.

Definition storageKey : string := "visitedLocations_" ++ projectId.

(** The condition under which the loop computes the distance to [loc]. *)
Definition measurable (visited : gset Z) (loc : Location) : bool :=
  negb (has visited (id loc)
        || JS.loosely_null (latitude loc)
        || JS.loosely_null (longitude loc)).

(** The condition under which the loop reaches [handleLocationVisit(loc)]. *)
Definition eligible (visited : gset Z) (here : Coordinates) (loc : Location) : bool :=
  measurable visited loc
  && JS.le (getDistance here {| latitude := latitude loc; longitude := longitude loc |})
           PROXIMITY_RADIUS.

(** The [for (const loc of locations)] loop. *)
Fixpoint scan (visited : gset Z) (here : Coordinates) (locations : list Location) : Scan :=
  match locations with
  | [] => {| measured := []; hit := None |}
  | loc :: rest =>
      if has visited (id loc)
         || JS.loosely_null (latitude loc)
         || JS.loosely_null (longitude loc)
      then scan visited here rest
      else
        let distance :=
          getDistance here {| latitude := latitude loc; longitude := longitude loc |} in
        if JS.le distance PROXIMITY_RADIUS
        then {| measured := [loc]; hit := Some loc |}
        else
          let r := scan visited here rest in
          {| measured := loc :: measured r; hit := hit r |}
  end.

(** The caller's continuation once [handleLocationVisit] has returned. *)
Definition resume (caller : Caller) (s : State) : State :=
  match caller with
  | FromLocationUpdate => set_processingRef false s
  | Direct => s
  end.

(** [handleLocationVisit] up to its first [await]. *)
Definition handleLocationVisit (caller : Caller) (s : State) (location : Location) : State :=
  if has (visitedLocationsRef s) (id location) then resume caller s
  else
    let updatedVisitedSet := visitedLocationsRef s ∪ {[ id location ]} in
    let s := setVisitedLocations updatedVisitedSet s in
    let s := set_visitedLocationsRef updatedVisitedSet s in
    let updatedVisitedArray := Array_from updatedVisitedSet in
    suspend (Visit_setItem caller location updatedVisitedArray) s.

(** The [catch] block of [handleLocationVisit]; thrown errors carry no
    [response], so the second alert is the one shown. *)
Definition handleLocationVisit_catch (caller : Caller) (i : nat) (s : State) : State :=
  resume caller
    (finish i (alert "Error" "Unable to process location access. Please try again later." s)).

(** [handleLocationUpdate] up to its first [await].  The subscription that
    calls it is renewed by an effect on [locations], so it reads the list of
    the latest render. *)
Definition handleLocationUpdate (s : State) (coords : Coordinates) : State :=
  if processingRef s then s
  else
    match hit (scan (visitedLocationsRef s) coords (locations s)) with
    | Some loc => handleLocationVisit FromLocationUpdate (set_processingRef true s) loc
    | None => s
    end.

(** [fetchData] up to its first [await]. *)
Definition fetchData (s : State) : State :=
  suspend Fetch_getProject (send (get_project projectId) s).

Definition fetchData_catch (i : nat) (s : State) : State :=
  finish i (alert "Error" "Unable to load project or location data." s).

(** [resetVisitedLocations] up to its first [await]. *)
Definition resetVisitedLocations (s : State) : State := suspend Reset_removeItem s.

(** One turn of the event loop. *)
Definition step (s : State) (e : Event) : State :=
  match e with
  | PositionUpdate coords => handleLocationUpdate s coords
  | ManualVisit location => handleLocationVisit Direct s location
  | PressReset => resetVisitedLocations s
  | Commit => set_visitedLocationsRef (visitedLocations s) s
  | SetItemSettled i ok =>
      match pending s !! i with
      | Some (Visit_setItem caller location updatedVisitedArray) =>
          if ok then
            let s := set_storage (<[storageKey := updatedVisitedArray]> (storage s)) s in
            continue i (Visit_updateLocationVisit caller location)
              (send (get_location (id location)) s)
          else handleLocationVisit_catch caller i s
      | _ => s
      end
  | UpdateLocationVisitSettled i r =>
      match pending s !! i with
      | Some (Visit_updateLocationVisit caller location) =>
          match r with
          | Fulfilled (_ :: _) =>
              continue i (Visit_createTracking caller location)
                (send (post_tracking (id location)) s)
          | Fulfilled [] | Rejected => handleLocationVisit_catch caller i s
          end
      | _ => s
      end
  | CreateTrackingSettled i ok =>
      match pending s !! i with
      | Some (Visit_createTracking caller location) =>
          if ok then
            let s := setCurrentLocationContent (location_content location) s in
            let s :=
              alert "Location Unlock"
                ("You have unlocked " ++ location_name location ++ "!") s in
            resume caller (finish i s)
          else handleLocationVisit_catch caller i s
      | _ => s
      end
  | RemoveItemSettled i ok =>
      match pending s !! i with
      | Some Reset_removeItem =>
          if ok then
            let s := set_storage (delete storageKey (storage s)) s in
            let s := setVisitedLocations ∅ s in
            let s := set_visitedLocationsRef ∅ s in
            let s :=
              alert "Reset Successfully"
                "Your access history has been cleared, you can start over!" s in
            fetchData (finish i s)
          else finish i (alert "Error" "Unable to reset access history." s)
      | _ => s
      end
  | GetProjectSettled i r =>
      match pending s !! i with
      | Some Fetch_getProject =>
          match r with
          | Fulfilled [] =>
              finish i (setProject None (alert "Error" "Project not found." s))
          | Fulfilled (p0 :: _) =>
              continue i Fetch_getLocations
                (send (get_locations projectId) (setProject (Some p0) s))
          | Rejected => fetchData_catch i s
          end
      | _ => s
      end
  | GetLocationsSettled i r =>
      match pending s !! i with
      | Some Fetch_getLocations =>
          match r with
          | Fulfilled allLocations =>
              let locationsWithCoords := List.map withCoords allLocations in
              continue i Fetch_getItem (setLocations locationsWithCoords s)
          | Rejected => fetchData_catch i s
          end
      | _ => s
      end
  | GetItemSettled i ok =>
      match pending s !! i with
      | Some Fetch_getItem =>
          if ok then
            let visitedArray :=
              match storage s !! storageKey with
              | Some visitedLocationsData => visitedLocationsData
              | None => []
              end in
            let visitedSet := new_Set visitedArray in
            finish i (setVisitedLocations visitedSet s)
          else fetchData_catch i s
      | _ => s
      end
  end.

Definition run (s : State) (events : list Event) : State := fold_left step events s.

(** The number of suspended calls that [handleLocationUpdate] is waiting
    for, and the guard agreeing with it. *)
Definition awaited (s : State) : nat :=
  length (List.filter awaited_by_update (pending s)).

Definition guard_consistent (s : State) : Prop :=
  awaited s = if processingRef s then 1%nat else 0%nat.

(** The arrays of the suspended storage writes hold identifiers of [allowed]
    only. *)
Definition writes_within (allowed : gset Z) (l : list Suspended) : Prop :=
  ∀ caller loc array,
    Visit_setItem caller loc array ∈ l → ∀ x, x ∈ array → x ∈ allowed.

(** Every identifier held by the screen, by its storage entry or by a
    suspended storage write is one of [allowed]. *)
Definition contained (allowed : gset Z) (s : State) : Prop :=
  visitedLocations s ⊆ allowed
  ∧ visitedLocationsRef s ⊆ allowed
  ∧ (∀ array, storage s !! storageKey = Some array → ∀ x, x ∈ array → x ∈ allowed)
  ∧ (∀ loc : Location, loc ∈ locations s → id loc ∈ allowed)
  ∧ writes_within allowed (pending s).

(** The screen right after it is mounted over the given storage: the initial
    states, and [fetchData] started by its effect. *)
Definition mount (stored : gmap string (list Z)) : State :=
  fetchData
    {| project := None; locations := []; visitedLocations := ∅;
       visitedLocationsRef := ∅; processingRef := false;
       currentLocationContent := None; storage := stored;
       requests := []; alerts := []; pending := [] |}.

End Engine.

End Screen.

(** ** Sample data

    A stand-in for [getDistance] that can be evaluated (coordinates read as
    metres on a grid, distance along the axes), and a small project. *)

Module Fixtures.
Import Api Screen.

Definition gridDistance (from to : Coordinates) : JS.number :=
  match latitude from, longitude from, latitude to, longitude to with
  | JS.Num (JS.Finite a), JS.Num (JS.Finite b),
    JS.Num (JS.Finite c), JS.Num (JS.Finite d) =>
      JS.Finite (Qabs (a - c) + Qabs (b - d))
  | _, _, _, _ => JS.NaN
  end.

Definition at_grid (x y : Z) : Coordinates :=
  {| latitude := JS.Num (JS.of_Z x); longitude := JS.Num (JS.of_Z y) |}.

Definition location (i : Z) (name : string) (pos : option string) (pts : option Z)
    (content : option string) : RawLocation :=
  {| id := i; location_name := name; location_position := pos;
     score_points := pts; clue := None; location_content := content |}.

Definition fountain : RawLocation :=
  location 1 "Fountain" (Some "(49, 0)") (Some 10) (Some "<p>Fountain</p>").
Definition library : RawLocation :=
  location 2 "Library" (Some "(0, 30)") (Some 5) (Some "<p>Library</p>").
Definition tower : RawLocation :=
  location 3 "Tower" (Some "(51, 0)") (Some 7) None.
Definition garbled : RawLocation :=
  location 4 "Garbled" (Some "(abc, def)") (Some 3) None.

Definition blank : RawLocation :=
  location 5 "Blank" (Some "(,)") (Some 1) None.

Definition project_with (scoring : string) : Project :=
  {| title := "Campus tour"; instructions := "Walk around.";
     homescreen_display := "Display all locations"; initial_clue := None;
     participant_scoring := scoring |}.

Definition origin : Coordinates := at_grid 0 0.

(** The settlements of the [fetchData] of a freshly mounted screen, all
    successful, and the effect that follows. *)
Definition fetched (ls : list RawLocation) : list Event :=
  [GetProjectSettled 0 (Fulfilled [project_with "Points"]);
   GetLocationsSettled 0 (Fulfilled ls);
   GetItemSettled 0 true;
   Commit].

(** The screen of project ["7"] once the given locations are loaded, nothing
    visited, nothing pending. *)
Definition loaded (ls : list RawLocation) : State :=
  {| project := Some (project_with "Points");
     locations := List.map withCoords ls;
     visitedLocations := ∅; visitedLocationsRef := ∅; processingRef := false;
     currentLocationContent := None; storage := ∅;
     requests := []; alerts := []; pending := [] |}.

End Fixtures.

(** ** api/api.js, the other readers *)

Module Totals.
Import Api.

(** [getTotalPossiblePoints(projectId)], from the results of its requests. *)
Definition getTotalPossiblePoints
    (project : outcome (list Project))
    (locations : outcome (list RawLocation)) : outcome Z :=
  match project with
  | Rejected => Rejected
  | Fulfilled [] => Rejected
  | Fulfilled (p0 :: _) =>
      let scoringType := JS.toLowerCase (participant_scoring p0) in
      if String.eqb scoringType "sequence"
         || String.eqb scoringType "number of locations entered"
      then
        match locations with
        | Rejected => Rejected
        | Fulfilled locations => Fulfilled (Z.of_nat (length locations))
        end
      else if String.eqb scoringType "points" then
        match locations with
        | Rejected => Rejected
        | Fulfilled locations =>
            let totalPossible :=
              fold_left (fun acc loc => acc + or_zero (score_points loc)) locations 0 in
            Fulfilled totalPossible
        end
      else Fulfilled 0
  end.

(** A row of [/project_participant_counts] or [/location_participant_counts]. *)
Record CountRow : Type := { participant_count : Z }.

(** [getProjectParticipantCount] and [getLocationParticipantCount], from the
    result of their request. *)
Definition getParticipantCount (response : outcome (list CountRow)) : outcome Z :=
  match response with
  | Rejected => Rejected
  | Fulfilled (row :: _) => Fulfilled (participant_count row)
  | Fulfilled [] => Fulfilled 0
  end.

(** [totalPossiblePoints] of [fetchData] in the project home screen. *)
Definition totalPossiblePoints (allLocations : list RawLocation) : Z :=
  fold_left (fun sum loc => sum + or_zero (score_points loc)) allLocations 0.

End Totals.

(** ** components/Project.jsx *)

Module ProjectList.
Import Totals.

(** A project of the list with its [participantCount]. *)
Record Listed (A : Type) : Type := {
  listed : A;
  participantCount : Z
}.
Arguments listed {A} l.
Arguments participantCount {A} l.

Record State (A : Type) : Type := {
  projects : list (Listed A);
  loading : bool;
  alerts : list Screen.Alert
}.
Arguments projects {A} s.
Arguments loading {A} s.
Arguments alerts {A} s.

Definition initial (A : Type) : State A :=
  {| projects := []; loading := true; alerts := [] |}.

(** The callback of [data.map] in [fetchProjects]: the count, [|| 0], and 0
    when the request fails. *)
Definition withParticipants {A : Type} (counts : A -> outcome (list CountRow))
    (project : A) : Listed A :=
  match getParticipantCount (counts project) with
  | Fulfilled participantCount =>
      {| listed := project; participantCount := participantCount |}
  | Rejected => {| listed := project; participantCount := 0 |}
  end.

(** [fetchProjects], from the result of [getProjects] and the results of the
    count requests. *)
Definition fetchProjects {A : Type} (data : outcome (list A))
    (counts : A -> outcome (list CountRow)) (s : State A) : State A :=
  match data with
  | Fulfilled [] =>
      {| projects := projects s; loading := false;
         alerts := alerts s
                   ++ [{| Screen.alert_title := "No Projects";
                          Screen.alert_message := "There are no projects available." |}] |}
  | Fulfilled data =>
      {| projects := List.map (withParticipants counts) data; loading := false;
         alerts := alerts s |}
  | Rejected =>
      {| projects := projects s; loading := false;
         alerts := alerts s
                   ++ [{| Screen.alert_title := "Error";
                          Screen.alert_message :=
                            "Unable to load project data. Please try again later." |}] |}
  end.

End ProjectList.

(** ** components/MapViewScreen.jsx *)

Module MapViewScreen.

Definition PROXIMITY_RADIUS : JS.number := JS.of_Z 100.

Definition parsePositionString (positionString : option string) : Coordinates :=
  match positionString with
  | None => {| latitude := JS.Null; longitude := JS.Null |}
  | Some s =>
      if String.eqb s "" then {| latitude := JS.Null; longitude := JS.Null |}
      else
        let coords := List.map JS.Number (JS.split_comma (JS.strip_parens s)) in
        {| latitude := JS.index coords 0; longitude := JS.index coords 1 |}
  end.

(** The callback of [fetchedLocations.map]. *)
Definition withCoords (loc : RawLocation) : Location :=
  {| raw := loc; position := parsePositionString (location_position loc) |}.

Record State : Type := {
  location : option Coordinates;
  errorMsg : option string;
  unlockedLocations : list Location;
  allLocations : list Location;
  loading : bool;
  alerts : list Screen.Alert
}.

Definition initial : State :=
  {| location := None; errorMsg := None; unlockedLocations := [];
     allLocations := []; loading := true; alerts := [] |}.

Definition setLocation v s :=
  {| location := v; errorMsg := errorMsg s; unlockedLocations := unlockedLocations s;
     allLocations := allLocations s; loading := loading s; alerts := alerts s |}.
Definition setErrorMsg v s :=
  {| location := location s; errorMsg := v; unlockedLocations := unlockedLocations s;
     allLocations := allLocations s; loading := loading s; alerts := alerts s |}.
Definition setUnlockedLocations v s :=
  {| location := location s; errorMsg := errorMsg s; unlockedLocations := v;
     allLocations := allLocations s; loading := loading s; alerts := alerts s |}.
Definition setAllLocations v s :=
  {| location := location s; errorMsg := errorMsg s;
     unlockedLocations := unlockedLocations s;
     allLocations := v; loading := loading s; alerts := alerts s |}.
Definition setLoading v s :=
  {| location := location s; errorMsg := errorMsg s;
     unlockedLocations := unlockedLocations s;
     allLocations := allLocations s; loading := v; alerts := alerts s |}.
Definition alert (t m : string) s :=
  {| location := location s; errorMsg := errorMsg s;
     unlockedLocations := unlockedLocations s;
     allLocations := allLocations s; loading := loading s;
     alerts := alerts s ++ [{| Screen.alert_title := t; Screen.alert_message := m |}] |}.

(** The variable [isActive] of the focus effect.  It starts as [true] and the
    cleanup of the effect, run when the screen loses the focus, sets it to
    [false] for good.  [cleanup] tells when the cleanup ran: [None] when the
    screen kept the focus until the call of [fetchData] was over, [Some k]
    when it ran after [k] of the awaits of the call had settled (so while the
    next one was pending).  [isActive cleanup j] is the value read right
    after the [j]-th await has settled. *)
Definition isActive (cleanup : option nat) (j : nat) : bool :=
  match cleanup with
  | None => true
  | Some k => (j <=? k)%nat
  end.

(** The awaits of [fetchData] in the order of the code: the permission
    ([requestForegroundPermissionsAsync]), the position
    ([getCurrentPositionAsync]), the locations ([getLocations]) and the stored
    array ([AsyncStorage.getItem]). *)
Definition permission_settled : nat := 1.
Definition position_settled : nat := 2.
Definition locations_settled : nat := 3.
Definition stored_settled : nat := 4.

(** The [finally] block of [fetchData]. *)
Definition fetchData_finally (isActive : bool) (s : State) : State :=
  if isActive then setLoading false s else s.

(** The [catch] block of [fetchData], followed by [finally]. *)
Definition fetchData_catch (isActive : bool) (s : State) : State :=
  fetchData_finally isActive
    (alert "Error" "Cannot fetch locations. Please try again later." s).

(** One call of [fetchData], from the results it awaits (the permission, the
    position, the locations and the stored array) and from the moment at
    which the screen lost the focus, if it did. *)
Definition fetchData (cleanup : option nat)
    (granted : outcome bool) (loc : outcome Coordinates)
    (fetchedLocations : outcome (list RawLocation))
    (visitedLocationsJSON : outcome (option (list Z))) (s : State) : State :=
  let s := setLoading true s in
  match granted with
  | Rejected => fetchData_catch (isActive cleanup permission_settled) s
  | Fulfilled false =>
      let s :=
        setErrorMsg (Some "Location permission is required to use this function.") s in
      let s := setLoading false s in
      fetchData_finally (isActive cleanup permission_settled) s
  | Fulfilled true =>
      match loc with
      | Rejected => fetchData_catch (isActive cleanup position_settled) s
      | Fulfilled coords =>
          let s :=
            if isActive cleanup position_settled
            then setLocation (Some coords) s else s in
          match fetchedLocations with
          | Rejected => fetchData_catch (isActive cleanup locations_settled) s
          | Fulfilled fetchedLocations =>
              let locationsWithCoords := List.map withCoords fetchedLocations in
              let s :=
                if isActive cleanup locations_settled
                then setAllLocations locationsWithCoords s else s in
              match visitedLocationsJSON with
              | Rejected => fetchData_catch (isActive cleanup stored_settled) s
              | Fulfilled stored =>
                  let visitedLocations :=
                    match stored with
                    | Some array => array
                    | None => []
                    end in
                  let unlocked :=
                    List.filter (fun loc : Location => includes visitedLocations (id loc))
                      locationsWithCoords in
                  let s :=
                    if isActive cleanup stored_settled
                    then setUnlockedLocations unlocked s else s in
                  fetchData_finally (isActive cleanup stored_settled) s
              end
          end
      end
  end.

(** The number of awaits of a call that settle before it is over. *)
Definition settled (granted : outcome bool) (loc : outcome Coordinates)
    (fetchedLocations : outcome (list RawLocation)) : nat :=
  match granted, loc, fetchedLocations with
  | Fulfilled true, Fulfilled _, Fulfilled _ => stored_settled
  | Fulfilled true, Fulfilled _, Rejected => locations_settled
  | Fulfilled true, Rejected, _ => position_settled
  | _, _, _ => permission_settled
  end.

Inductive PinColor : Type := green | blue | red.

(** What is drawn for a location: the marker and, by [isWithinRadius], the
    colours of its circle. *)
Record Marker : Type := {
  key : Z;
  coordinate : Coordinates;
  marker_title : string;
  pinColor : PinColor;
  isWithinRadius : bool
}.

Section Markers.

Variable getDistance : Coordinates -> Coordinates -> JS.number.

(** The callback of [allLocations.map] in [renderMarkers]. *)
Definition renderMarker (location : Coordinates) (unlockedLocations : list Location)
    (loc : Location) : option Marker :=
  if JS.falsy (latitude loc) || JS.falsy (longitude loc) then None
  else
    let distance :=
      getDistance
        {| latitude := latitude location; longitude := longitude location |}
        {| latitude := latitude loc; longitude := longitude loc |} in
    let isWithinRadius := JS.le distance PROXIMITY_RADIUS in
    let isUnlocked :=
      existsb (fun unlockedLoc : Location => id unlockedLoc =? id loc) unlockedLocations in
    Some {| key := id loc;
            coordinate := {| latitude := latitude loc; longitude := longitude loc |};
            marker_title := location_name loc;
            pinColor :=
              if isUnlocked then green else if isWithinRadius then blue else red;
            isWithinRadius := isWithinRadius |}.

Definition renderMarkers (s : State) : option (list (option Marker)) :=
  match location s with
  | None => None
  | Some here =>
      Some (List.map (renderMarker here (unlockedLocations s)) (allLocations s))
  end.

End Markers.

End MapViewScreen.

(** ** Notions used to state further properties *)

Module Notions.
Import Api Screen.

(** The number of commas of a string. *)
Definition commas (s : string) : nat :=
  length (List.filter (fun c => JS.code c =? 44) (JS.chars s)).

(** In a list of requests, every tracking request comes after a request for
    the location it tracks. *)
Definition tracked_after_lookup (sent : list Request) : Prop :=
  ∀ before x after,
    sent = before ++ post_tracking x :: after → get_location x ∈ before.

(** The location of every call suspended at [updateLocationVisit] has been
    requested. *)
Definition lookups_sent (sent : list Request) (l : list Suspended) : Prop :=
  ∀ caller loc,
    Visit_updateLocationVisit caller loc ∈ l → get_location (id loc) ∈ sent.

End Notions.

(** ** More sample data *)

Module Samples.
Import Api Screen Fixtures.

(** A location away from both axes, 40 m from the origin on the grid. *)
Definition bench : RawLocation :=
  location 6 "Bench" (Some "(20, 20)") (Some 4) (Some "<p>Bench</p>").

(** A location whose position string has no comma. *)
Definition unplaced : RawLocation :=
  location 7 "Unplaced" (Some "(49)") (Some 2) None.

(** A completed unlock of the fountain on a freshly mounted screen. *)
Definition fountain_session : list Event :=
  fetched [fountain; library]
  ++ [PositionUpdate origin;
      SetItemSettled 0 true;
      UpdateLocationVisitSettled 0 (Fulfilled [fountain]);
      CreateTrackingSettled 0 true].

End Samples.

(** ** Properties of the screen *)

Module Properties.
Import Api Screen.

Section WithEnvironment.

Variable getDistance : Coordinates -> Coordinates -> JS.number.
Variable projectId : string.

Local Abbreviation eligible := (Screen.eligible getDistance).
Local Abbreviation scan := (Screen.scan getDistance).
Local Abbreviation handleLocationUpdate := (Screen.handleLocationUpdate getDistance).
Local Abbreviation step := (Screen.step getDistance projectId).
Local Abbreviation run := (Screen.run getDistance projectId).
Local Abbreviation storageKey := (Screen.storageKey projectId).
Local Abbreviation mount := (Screen.mount projectId).
Local Abbreviation contained := (Screen.contained projectId).

(** *** The loop of [handleLocationUpdate] *)

Lemma scan_spec (visited : gset Z) (here : Coordinates) (ls : list Location) :
  match hit (scan visited here ls) with
  | Some loc =>
      ∃ pre post,
        ls = pre ++ loc :: post
        ∧ Forall (λ l, eligible visited here l = false) pre
        ∧ eligible visited here loc = true
        ∧ measured (scan visited here ls)
          = List.filter (measurable visited) pre ++ [loc]
  | None =>
      Forall (λ l, eligible visited here l = false) ls
      ∧ measured (scan visited here ls) = List.filter (measurable visited) ls
  end.
Proof.
  induction ls as [|l ls IH]; simpl.
  - split; [constructor | reflexivity].
  - assert (Hm : measurable visited l
                 = negb (has visited (id l) || JS.loosely_null (latitude l)
                         || JS.loosely_null (longitude l))) by reflexivity.
    assert (He : eligible visited here l
                 = measurable visited l
                   && JS.le (getDistance here
                               {| latitude := latitude l; longitude := longitude l |})
                            PROXIMITY_RADIUS) by reflexivity.
    destruct (has visited (id l) || JS.loosely_null (latitude l)
              || JS.loosely_null (longitude l)) eqn:Hskip; simpl in Hm.
    + rewrite Hm in He; simpl in He.
      destruct (hit (scan visited here ls)) as [loc|].
      * destruct IH as (pre & post & -> & Hpre & Hloc & Hmeas).
        exists (l :: pre), post. simpl. rewrite Hm. auto.
      * destruct IH as [Hall Hmeas]. rewrite Hm. auto.
    + rewrite Hm in He; simpl in He.
      destruct (JS.le _ PROXIMITY_RADIUS) eqn:Hle; simpl.
      * exists [], ls. simpl. auto.
      * destruct (hit (scan visited here ls)) as [loc|].
        -- destruct IH as (pre & post & -> & Hpre & Hloc & Hmeas).
           exists (l :: pre), post. simpl. rewrite Hm, Hmeas. auto.
        -- destruct IH as [Hall Hmeas]. rewrite Hm, Hmeas. auto.
Qed.

Lemma eligible_unvisited visited here loc :
  eligible visited here loc = true → id loc ∉ visited.
Proof.
  unfold eligible, measurable, has. intros H Hin.
  rewrite (bool_decide_eq_true_2 _ Hin) in H. discriminate.
Qed.

(** *** Record updates leave the visited sets alone *)

Lemma settles_visit_visited (s : State) (e : Event) :
  settles_visit e = true →
  visitedLocations (step s e) = visitedLocations s
  ∧ visitedLocationsRef (step s e) = visitedLocationsRef s.
Proof.
  destruct e as [| | | |i ok|i r|i ok| | | |]; try discriminate; intros _; simpl;
    destruct (pending s !! i) as [[c l a|c l|c l| | | |]|]; try done.
  - destruct ok; [done|]. unfold handleLocationVisit_catch. by destruct c.
  - destruct r as [[|? ?]|]; try done; unfold handleLocationVisit_catch; by destruct c.
  - destruct ok; unfold handleLocationVisit_catch; by destruct c.
Qed.

(** *** One unlock per position update *)

Lemma added_alone (visited : gset Z) (a b : Z) :
  a ≠ b → b ∉ visited →
  a ∈ visited ∪ {[ a ]} ∧ (b ∉ visited ∪ {[ a ]}).
Proof.
  intros Hne Hb. split; [apply elem_of_union_r; by apply elem_of_singleton|].
  intros [H|H]%elem_of_union; [done|]. apply elem_of_singleton in H. congruence.
Qed.

Lemma handleLocationUpdate_cases (s : State) (here : Coordinates) :
  let visited := visitedLocationsRef s in
  let s' := handleLocationUpdate s here in
  (s' = s
   ∧ (processingRef s = true
      ∨ Forall (λ l, eligible visited here l = false) (locations s)))
  ∨ (processingRef s = false
     ∧ ∃ pre loc post,
         locations s = pre ++ loc :: post
         ∧ Forall (λ l, eligible visited here l = false) pre
         ∧ eligible visited here loc = true
         ∧ measured (scan visited here (locations s))
           = List.filter (measurable visited) pre ++ [loc]
         ∧ visitedLocationsRef s' = visited ∪ {[ id loc ]}
         ∧ visitedLocations s' = visited ∪ {[ id loc ]}
         ∧ processingRef s' = true
         ∧ pending s'
           = pending s
             ++ [Visit_setItem FromLocationUpdate loc
                   (Array_from (visited ∪ {[ id loc ]}))]).
Proof.
  intros visited s'. subst s'. unfold Screen.handleLocationUpdate.
  destruct (processingRef s) eqn:Hbusy; [left; auto|].
  pose proof (scan_spec visited here (locations s)) as Hscan.
  fold visited.
  destruct (hit (scan visited here (locations s))) as [loc|].
  - right. split; [reflexivity|].
    destruct Hscan as (pre & post & Hsplit & Hpre & Hloc & Hmeas).
    exists pre, loc, post.
    pose proof (eligible_unvisited _ _ _ Hloc) as Hnew.
    unfold handleLocationVisit. simpl. fold visited.
    unfold has. rewrite (bool_decide_eq_false_2 _ Hnew). simpl.
    repeat split; assumption || reflexivity.
  - left. destruct Hscan as [Hall _]. auto.
Qed.


(** *** The proximity radius *)

Lemma eligible_by_distance visited here (loc : Location) (q : Q) :
  measurable visited loc = true →
  getDistance here {| latitude := latitude loc; longitude := longitude loc |}
    = JS.Finite q →
  eligible visited here loc = Qle_bool q 50.
Proof.
  intros Hm Hd. unfold Screen.eligible. rewrite Hm, Hd. reflexivity.
Qed.

(** C9.  The radius of the tracking loop is 50 metres: an unvisited location
    with coordinates is eligible when [getDistance] reports 49 metres and is
    not eligible when it reports 51, and the loop stops at it in the first
    case and passes it in the second. *)
Theorem proximity_threshold_50 visited here (loc : Location) (q : Q) :
  measurable visited loc = true →
  getDistance here {| latitude := latitude loc; longitude := longitude loc |}
    = JS.Finite q →
  PROXIMITY_RADIUS = JS.of_Z 50
  ∧ ((q == 49)%Q →
       eligible visited here loc = true
       ∧ hit (scan visited here [loc]) = Some loc)
  ∧ ((q == 51)%Q →
       eligible visited here loc = false
       ∧ hit (scan visited here [loc]) = None).
Proof.
  intros Hm Hd. split; [reflexivity|].
  pose proof (eligible_by_distance _ _ _ _ Hm Hd) as He.
  pose proof (scan_spec visited here [loc]) as Hs.
  split; intros Hq.
  - assert (E : eligible visited here loc = true).
    { rewrite He. apply Qle_bool_iff. rewrite Hq. discriminate. }
    split; [exact E|].
    destruct (hit (scan visited here [loc])) as [l|].
    + destruct Hs as (pre & post & Hsplit & _).
      destruct pre as [|? [|? ?]]; simpl in Hsplit; [congruence|discriminate..].
    + destruct Hs as [Hall _]. inversion Hall; congruence.
  - assert (E : eligible visited here loc = false).
    { rewrite He. apply not_true_is_false. rewrite Qle_bool_iff, Hq. intros H. by apply H. }
    split; [exact E|].
    destruct (hit (scan visited here [loc])) as [l|]; [|reflexivity].
    destruct Hs as (pre & post & Hsplit & _ & Hl & _).
    destruct pre as [|? [|? ?]]; simpl in Hsplit; [congruence|discriminate..].
Qed.

(** *** Scoring *)

Lemma fold_left_add_points (ls : list RawLocation) (a : Z) :
  fold_left (fun acc loc => acc + or_zero (score_points loc)) ls a
  = a + foldr Z.add 0 (List.map (fun loc => or_zero (score_points loc)) ls).
Proof.
  revert a. induction ls as [|l ls IH]; intros a; simpl; [lia|].
  rewrite IH. lia.
Qed.

Lemma includes_Array_from (visited : gset Z) (x : Z) :
  includes (Array_from visited) x = bool_decide (x ∈ visited).
Proof.
  unfold includes, Array_from. apply bool_decide_ext. apply elem_of_elements.
Qed.

Lemma calculatePoints_from (ls : list RawLocation) (visited : gset Z) (a : Z) :
  fold_left
    (fun sum (loc : Location) =>
       if has visited (id loc) then sum + or_zero (score_points loc) else sum)
    (List.map withCoords ls) a
  = a + ScoreTotal Points ls visited.
Proof.
  revert a. induction ls as [|l ls IH]; intros a; simpl; [lia|].
  rewrite IH. unfold has. simpl. destruct (bool_decide (id l ∈ visited)); simpl; lia.
Qed.

Lemma getTotalPoints_mode (p0 : Project) (others : list Project)
    (ls : list RawLocation) (visited : gset Z) (mode : ScoringMode) :
  scoring_mode p0 = Some mode →
  getTotalPoints (Fulfilled (p0 :: others)) (Fulfilled ls) (Array_from visited)
  = Fulfilled (ScoreTotal mode ls visited).
Proof.
  unfold scoring_mode, getTotalPoints.
  destruct (_ || _).
  - intros [= <-]. reflexivity.
  - destruct (String.eqb _ "points"); [|discriminate].
    intros [= <-]. f_equal. rewrite fold_left_add_points. simpl.
    rewrite (List.filter_ext _ (fun loc => bool_decide (id loc ∈ visited)))
      by (intros; apply includes_Array_from).
    lia.
Qed.


(** *** Locations without a position *)

Lemma parsePositionString_absent :
  parsePositionString None = {| latitude := JS.Null; longitude := JS.Null |}
  ∧ parsePositionString (Some "") = {| latitude := JS.Null; longitude := JS.Null |}.
Proof. split; reflexivity. Qed.

Lemma measured_measurable visited here (ls : list Location) (loc : Location) :
  loc ∈ measured (scan visited here ls) → measurable visited loc = true.
Proof.
  pose proof (scan_spec visited here ls) as Hs.
  destruct (hit (scan visited here ls)) as [h|].
  - destruct Hs as (pre & post & _ & _ & Hh & ->).
    rewrite elem_of_app, !list_elem_of_In, filter_In. intros [[_ ?]|[<-|[]]]; [done|].
    unfold Screen.eligible in Hh. by apply andb_true_iff in Hh as [? _].
  - destruct Hs as [_ ->]. rewrite list_elem_of_In, filter_In. by intros [_ ?].
Qed.

(** A location whose latitude or longitude is [null] or [undefined] is
    skipped by the loop: no distance to it is computed and it is never the
    location unlocked. *)
Lemma null_coordinates_excluded visited here (ls : list Location) (loc : Location) :
  JS.loosely_null (latitude loc) = true ∨ JS.loosely_null (longitude loc) = true →
  (loc ∉ measured (scan visited here ls))
  ∧ hit (scan visited here ls) ≠ Some loc.
Proof.
  intros Hnull.
  assert (Hm : measurable visited loc = false).
  { unfold measurable. destruct Hnull as [-> | ->];
      rewrite ?orb_true_r; reflexivity. }
  split.
  - intros Hin. apply measured_measurable in Hin. congruence.
  - intros Hhit. pose proof (scan_spec visited here ls) as Hs. rewrite Hhit in Hs.
    destruct Hs as (_ & _ & _ & _ & He & _).
    unfold Screen.eligible in He. rewrite Hm in He. discriminate.
Qed.

(** C4.  The position string ["(abc, def)"] is not parsed to "no position":
    [parsePositionString] returns [NaN] for both coordinates, [NaN == null]
    is false, and the loop computes the distance to the location on a
    position update. *)
Theorem garbled_position_is_measured (here : Coordinates) :
  let loc := withCoords Fixtures.garbled in
  location_position Fixtures.garbled = Some "(abc, def)"
  ∧ latitude loc = JS.Num JS.NaN
  ∧ longitude loc = JS.Num JS.NaN
  ∧ measurable ∅ loc = true
  ∧ measured (scan ∅ here [loc]) = [loc].
Proof.
  intros loc.
  assert (Hm : measurable ∅ loc = true) by (vm_compute; reflexivity).
  do 3 (split; [reflexivity|]). split; [exact Hm|].
  pose proof (scan_spec ∅ here [loc]) as Hs.
  destruct (hit (scan ∅ here [loc])) as [h|].
  - destruct Hs as (pre & post & Hsplit & _ & _ & ->).
    destruct pre as [|? [|? ?]]; simpl in Hsplit; [|discriminate..].
    injection Hsplit as <- _. reflexivity.
  - destruct Hs as [_ ->]. simpl. by rewrite Hm.
Qed.

(** *** Suspended calls and their settlements *)

Lemma lookup_suspended (l : list Suspended) (k : Suspended) :
  (l ++ [k]) !! length l = Some k.
Proof. by rewrite list_lookup_middle. Qed.

Lemma continue_suspended (l : list Suspended) (k k' : Suspended) :
  <[length l := k']> (l ++ [k]) = l ++ [k'].
Proof.
  rewrite insert_app_r_alt by lia. by rewrite Nat.sub_diag.
Qed.

Lemma finish_suspended (l : list Suspended) (k : Suspended) :
  delete (length l) (l ++ [k]) = l.
Proof. induction l as [|x l IH]; simpl; [done|]. by rewrite IH. Qed.

Lemma run_cons (s : State) (e : Event) (es : list Event) :
  run s (e :: es) = run (step s e) es.
Proof. reflexivity. Qed.

Lemma run_nil (s : State) : run s [] = s.
Proof. reflexivity. Qed.

Lemma handleLocationVisit_fresh caller (s : State) (l : Location) :
  id l ∉ visitedLocationsRef s →
  handleLocationVisit caller s l
  = mkState (project s) (locations s)
      (visitedLocationsRef s ∪ {[ id l ]}) (visitedLocationsRef s ∪ {[ id l ]})
      (processingRef s) (currentLocationContent s) (storage s) (requests s)
      (alerts s)
      (pending s
       ++ [Visit_setItem caller l (Array_from (visitedLocationsRef s ∪ {[ id l ]}))]).
Proof.
  intros Hnew. unfold handleLocationVisit, has.
  by rewrite (bool_decide_eq_false_2 _ Hnew).
Qed.

Lemma handleLocationVisit_visited (s : State) (l : Location) :
  id l ∈ visitedLocationsRef s →
  handleLocationVisit Direct s l = s.
Proof.
  intros Hin. unfold handleLocationVisit, has.
  by rewrite (bool_decide_eq_true_2 _ Hin).
Qed.

Lemma handleLocationVisit_marks caller (s : State) (l : Location) :
  id l ∈ visitedLocationsRef (handleLocationVisit caller s l).
Proof.
  unfold handleLocationVisit, has. case_bool_decide as Hin.
  - by destruct caller.
  - simpl. set_solver.
Qed.

(** Delivers the next event of a run to the call suspended last. *)
Lemma lookup_past_end (l : list Suspended) : l !! length l = None.
Proof. by apply lookup_ge_None. Qed.

(** Evaluates the record updates on a state given by its fields. *)
Ltac compute_updates :=
  cbv beta iota zeta
    delta [handleLocationVisit_catch fetchData_catch Screen.fetchData
           resetVisitedLocations continue finish suspend send alert set_storage
           set_pending setCurrentLocationContent setVisitedLocations
           set_visitedLocationsRef setProject setLocations
           project locations visitedLocations visitedLocationsRef processingRef
           currentLocationContent storage requests alerts pending].

(** Delivers the next event of a run, which settles the call suspended last
    or finds no call at its index. *)
Ltac settle_next :=
  rewrite run_cons; unfold Screen.step at 1; compute_updates;
  rewrite ?lookup_suspended, ?lookup_past_end; compute_updates;
  rewrite ?continue_suspended, ?finish_suspended, ?lookup_delete_eq.

Lemma visit_run_success caller (s : State) (l : Location)
    (found : RawLocation) (others : list RawLocation) :
  id l ∉ visitedLocationsRef s →
  let i := length (pending s) in
  let updated := visitedLocationsRef s ∪ {[ id l ]} in
  run (handleLocationVisit caller s l)
    [SetItemSettled i true;
     UpdateLocationVisitSettled i (Fulfilled (found :: others));
     CreateTrackingSettled i true]
  = resume caller
      (mkState (project s) (locations s) updated updated (processingRef s)
         (location_content l)
         (<[storageKey := Array_from updated]> (storage s))
         (requests s ++ [get_location (id l); post_tracking (id l)])
         (alerts s ++ [unlock_alert l])
         (pending s)).
Proof.
  intros Hnew i updated. rewrite (handleLocationVisit_fresh _ _ _ Hnew).
  subst i updated. destruct s as [p ls v r b c st rq al pd]. compute_updates.
  do 3 settle_next. rewrite run_nil, <- app_assoc. reflexivity.
Qed.

Lemma visit_run_remote_failure caller (s : State) (l : Location) (f : RemoteFailure) :
  id l ∉ visitedLocationsRef s →
  let i := length (pending s) in
  let updated := visitedLocationsRef s ∪ {[ id l ]} in
  ∃ sent,
    run (handleLocationVisit caller s l) (SetItemSettled i true :: remote_failure i f)
    = resume caller
        (mkState (project s) (locations s) updated updated (processingRef s)
           (currentLocationContent s)
           (<[storageKey := Array_from updated]> (storage s))
           (requests s ++ get_location (id l) :: sent)
           (alerts s ++ [visit_error_alert])
           (pending s)).
Proof.
  intros Hnew i updated. rewrite (handleLocationVisit_fresh _ _ _ Hnew).
  subst i updated. destruct s as [p ls v r b c st rq al pd]. compute_updates.
  destruct f as [| |found others]; unfold remote_failure.
  - exists []. do 2 settle_next. by rewrite run_nil.
  - exists []. do 2 settle_next. by rewrite run_nil.
  - exists [post_tracking (id l)]. do 3 settle_next.
    by rewrite run_nil, <- app_assoc.
Qed.

Lemma remote_settlement_frame (t : State) (i : nat) (f : RemoteFailure) (e : Event) :
  e ∈ remote_failure i f →
  visitedLocations (step t e) = visitedLocations t
  ∧ visitedLocationsRef (step t e) = visitedLocationsRef t
  ∧ storage (step t e) = storage t.
Proof.
  intros He.
  assert (Hs : settles_visit e = true ∧ ∀ j, e ≠ SetItemSettled j true).
  { destruct f; unfold remote_failure in He;
      repeat (apply elem_of_cons in He as [->|He]); try (by apply elem_of_nil in He);
      split; try reflexivity; intros j; discriminate. }
  destruct Hs as [Hs Hnot].
  destruct (settles_visit_visited t e Hs) as [-> ->]. do 2 (split; [reflexivity|]).
  destruct e as [| | | |j ok|j r|j ok| | | |]; try discriminate; simpl;
    destruct (pending t !! j) as [[c l a|c l|c l| | | |]|]; try reflexivity.
  - destruct ok; [by destruct (Hnot j)|]. by destruct c.
  - destruct r as [[|? ?]|]; try reflexivity; by destruct c.
  - destruct ok; by destruct c.
Qed.

Lemma scan_skips_visited visited here (ls : list Location) (loc : Location) (x : Z) :
  x ∈ visited →
  loc ∈ measured (scan visited here ls) ∨ hit (scan visited here ls) = Some loc →
  id loc ≠ x.
Proof.
  intros Hx Hloc Heq.
  assert (Hm : measurable visited loc = true).
  { destruct Hloc as [Hin|Hhit]; [by eapply measured_measurable|].
    pose proof (scan_spec visited here ls) as Hs. rewrite Hhit in Hs.
    destruct Hs as (_ & _ & _ & _ & He & _).
    unfold Screen.eligible in He. by apply andb_true_iff in He as [? _]. }
  unfold measurable, has in Hm. rewrite Heq in Hm.
  by rewrite (bool_decide_eq_true_2 _ Hx) in Hm.
Qed.

(** *** Unlocking twice *)

(** What the check of [handleLocationVisit] does ensure.  Once the
    identifier of a location is in the visited ref, which is the set that the
    engine consults, invoking the unlock again does nothing: the direct call
    returns the state unchanged (visited set, storage, requests, suspended
    calls, hence the score), and the proximity loop neither measures nor
    selects a location with that identifier.  After any first invocation the
    identifier is in that set, so the second of two invocations is a no-op,
    also after the first has run to completion, having written the storage
    entry once and sent one location request and one tracking request. *)
Theorem unlock_idempotent (s : State) (location : Location) :
  (id location ∈ visitedLocationsRef s →
   step s (ManualVisit location) = s
   ∧ points (step s (ManualVisit location)) = points s
   ∧ ∀ here (loc : Location),
       loc ∈ measured (scan (visitedLocationsRef s) here (locations s))
       ∨ hit (scan (visitedLocationsRef s) here (locations s)) = Some loc →
       id loc ≠ id location)
  ∧ (let s1 := step s (ManualVisit location) in
     id location ∈ visitedLocationsRef s1
     ∧ step s1 (ManualVisit location) = s1)
  ∧ (id location ∉ visitedLocationsRef s →
     ∀ caller found others,
       let i := length (pending s) in
       let updated := visitedLocationsRef s ∪ {[ id location ]} in
       let s4 :=
         run (handleLocationVisit caller s location)
           [SetItemSettled i true;
            UpdateLocationVisitSettled i (Fulfilled (found :: others));
            CreateTrackingSettled i true] in
       visitedLocations s4 = updated
       ∧ visitedLocationsRef s4 = updated
       ∧ storage s4 = <[storageKey := Array_from updated]> (storage s)
       ∧ requests s4
         = requests s ++ [get_location (id location); post_tracking (id location)]
       ∧ pending s4 = pending s
       ∧ step s4 (ManualVisit location) = s4
       ∧ ∀ here (loc : Location),
           hit (scan (visitedLocationsRef s4) here (locations s4)) = Some loc →
           id loc ≠ id location).
Proof.
  split; [|split].
  - intros Hin. simpl. rewrite (handleLocationVisit_visited _ _ Hin).
    do 2 (split; [reflexivity|]).
    intros here loc Hloc. by eapply scan_skips_visited.
  - simpl. split; [apply handleLocationVisit_marks|].
    apply handleLocationVisit_visited, handleLocationVisit_marks.
  - intros Hnew caller found others i updated s4. subst s4 i updated.
    rewrite (visit_run_success caller s location found others Hnew).
    assert (Hin : id location ∈ visitedLocationsRef s ∪ {[ id location ]})
      by set_solver.
    destruct caller; simpl; (do 5 (split; [reflexivity|]));
      (split; [by rewrite handleLocationVisit_visited|]);
      intros here loc Hhit; eapply scan_skips_visited; eauto.
Qed.

(** *** A failing remote call *)

(** C6.  When the remote recording fails after the local part of an unlock
    (request for the location rejected, location not found, or tracking
    request rejected), nothing is rolled back: the identifier is in the
    visited state and ref, the storage entry holds the updated array with
    the identifier, and the points are those of the updated set; the failure
    is reported by an alert.  No settlement of the failing call touches the
    visited sets or the storage, whatever else is going on. *)
Theorem remote_failure_keeps_local_unlock caller (s : State) (location : Location)
    (f : RemoteFailure) :
  id location ∉ visitedLocationsRef s →
  let i := length (pending s) in
  let updated := visitedLocationsRef s ∪ {[ id location ]} in
  let s' :=
    run (handleLocationVisit caller s location)
      (SetItemSettled i true :: remote_failure i f) in
  id location ∈ visitedLocations s'
  ∧ id location ∈ visitedLocationsRef s'
  ∧ visitedLocations s' = updated
  ∧ visitedLocationsRef s' = updated
  ∧ storage s' !! storageKey = Some (Array_from updated)
  ∧ id location ∈ Array_from updated
  ∧ points s' = calculatePoints (locations s) updated
  ∧ alerts s' = alerts s ++ [visit_error_alert]
  ∧ ∀ (t : State) (j : nat) (e : Event),
      e ∈ remote_failure j f →
      visitedLocations (step t e) = visitedLocations t
      ∧ visitedLocationsRef (step t e) = visitedLocationsRef t
      ∧ storage (step t e) = storage t.
Proof.
  intros Hnew i updated s'.
  destruct (visit_run_remote_failure caller s location f Hnew) as [sent Hrun].
  fold i updated in Hrun. fold s' in Hrun.
  assert (Hin : id location ∈ updated) by (subst updated; set_solver).
  rewrite Hrun.
  destruct caller; simpl; unfold points; simpl;
    (repeat split; try done;
     [by rewrite lookup_insert_eq | by apply elem_of_elements
     | intros; by eapply remote_settlement_frame
     | intros; by eapply remote_settlement_frame
     | intros; by eapply remote_settlement_frame]).
Qed.

(** C7.  The remote recording is awaited inside the unlock: when it fails,
    the failure is reported by the error alert and the visited set and the
    storage entry stay updated, but the content of the location is not
    handed to the screen and no unlock alert is shown, and the call is over;
    the content is set, with the unlock alert, when both remote calls
    succeed. *)
Theorem remote_failure_skips_content caller (s : State) (location : Location)
    (f : RemoteFailure) (found : RawLocation) (others : list RawLocation) :
  id location ∉ visitedLocationsRef s →
  let i := length (pending s) in
  let updated := visitedLocationsRef s ∪ {[ id location ]} in
  let failed :=
    run (handleLocationVisit caller s location)
      (SetItemSettled i true :: remote_failure i f) in
  let recorded :=
    run (handleLocationVisit caller s location)
      [SetItemSettled i true;
       UpdateLocationVisitSettled i (Fulfilled (found :: others));
       CreateTrackingSettled i true] in
  (currentLocationContent failed = currentLocationContent s
   ∧ alerts failed = alerts s ++ [visit_error_alert]
   ∧ pending failed = pending s
   ∧ visitedLocations failed = updated
   ∧ storage failed !! storageKey = Some (Array_from updated))
  ∧ (currentLocationContent recorded = location_content location
     ∧ alerts recorded = alerts s ++ [unlock_alert location]
     ∧ pending recorded = pending s).
Proof.
  intros Hnew i updated failed recorded.
  destruct (visit_run_remote_failure caller s location f Hnew) as [sent Hrun].
  pose proof (visit_run_success caller s location found others Hnew) as Hok.
  cbv zeta in Hok. subst failed recorded updated i. rewrite Hrun, Hok.
  destruct caller; simpl; repeat split; try done; by rewrite lookup_insert_eq.
Qed.

(** *** The busy guard *)

Lemma awaited_app (l : list Suspended) (k : Suspended) :
  length (List.filter awaited_by_update (l ++ [k]))
  = (length (List.filter awaited_by_update l)
     + if awaited_by_update k then 1 else 0)%nat.
Proof.
  rewrite List.filter_app, length_app. simpl.
  by destruct (awaited_by_update k).
Qed.

Lemma awaited_delete (l : list Suspended) (i : nat) (k : Suspended) :
  l !! i = Some k →
  (length (List.filter awaited_by_update (delete i l))
   + if awaited_by_update k then 1 else 0)%nat
  = length (List.filter awaited_by_update l).
Proof.
  revert i. induction l as [|x l IH]; intros [|i] H; simpl in *; try discriminate.
  - injection H as ->. destruct (awaited_by_update k); simpl; lia.
  - specialize (IH i H). destruct (awaited_by_update x); simpl; lia.
Qed.

Lemma awaited_insert (l : list Suspended) (i : nat) (k k' : Suspended) :
  l !! i = Some k →
  (length (List.filter awaited_by_update (<[i := k']> l))
   + if awaited_by_update k then 1 else 0)%nat
  = (length (List.filter awaited_by_update l)
     + if awaited_by_update k' then 1 else 0)%nat.
Proof.
  revert i. induction l as [|x l IH]; intros [|i] H; simpl in *; try discriminate.
  - injection H as ->.
    destruct (awaited_by_update k), (awaited_by_update k'); simpl; lia.
  - specialize (IH i H). destruct (awaited_by_update x); simpl; lia.
Qed.

Ltac guard_arith :=
  repeat match goal with
         | |- context [if ?b then _ else _] => destruct b
         | H : context [if ?b then _ else _] |- _ => destruct b
         end; simpl in *; try lia; try discriminate.

Lemma guard_consistent_step (s : State) (e : Event) :
  guard_consistent s → guard_consistent (step s e).
Proof.
  unfold guard_consistent, awaited. intros Hs.
  destruct e as [here|l| | |i ok|i r|i ok|i ok|i r|i r|i ok]; simpl.
  - (* PositionUpdate *)
    unfold Screen.handleLocationUpdate.
    destruct (processingRef s) eqn:Hbusy; [by rewrite Hbusy|].
    destruct (hit _) as [loc|]; [|by rewrite Hbusy].
    unfold handleLocationVisit. simpl. destruct (has _ _); simpl; [done|].
    rewrite awaited_app. simpl. lia.
  - (* ManualVisit *)
    unfold handleLocationVisit. destruct (has _ _); simpl; [done|].
    rewrite awaited_app. simpl. lia.
  - rewrite awaited_app. simpl. lia.
  - done.
  - destruct (pending s !! i) as [[c l a|c l|c l| | | |]|] eqn:Hk; try done.
    destruct ok; simpl.
    + pose proof (awaited_insert _ _ _ (Visit_updateLocationVisit c l) Hk) as H.
      destruct c; simpl in *; lia.
    + pose proof (awaited_delete _ _ _ Hk) as H.
      destruct c; simpl in *; guard_arith.
  - destruct (pending s !! i) as [[c l a|c l|c l| | | |]|] eqn:Hk; try done.
    pose proof (awaited_insert _ _ _ (Visit_createTracking c l) Hk) as Hi.
    pose proof (awaited_delete _ _ _ Hk) as Hd.
    destruct r as [[|? ?]|]; destruct c; simpl in *; guard_arith.
  - destruct (pending s !! i) as [[c l a|c l|c l| | | |]|] eqn:Hk; try done.
    pose proof (awaited_delete _ _ _ Hk) as Hd.
    destruct ok; destruct c; simpl in *; guard_arith.
  - destruct (pending s !! i) as [[c l a|c l|c l| | | |]|] eqn:Hk; try done.
    pose proof (awaited_delete _ _ _ Hk) as Hd.
    destruct ok; simpl in *; rewrite ?awaited_app; simpl; guard_arith.
  - destruct (pending s !! i) as [[c l a|c l|c l| | | |]|] eqn:Hk; try done.
    pose proof (awaited_insert _ _ _ Fetch_getLocations Hk) as Hi.
    pose proof (awaited_delete _ _ _ Hk) as Hd.
    destruct r as [[|? ?]|]; simpl in *; guard_arith.
  - destruct (pending s !! i) as [[c l a|c l|c l| | | |]|] eqn:Hk; try done.
    pose proof (awaited_insert _ _ _ Fetch_getItem Hk) as Hi.
    pose proof (awaited_delete _ _ _ Hk) as Hd.
    destruct r as [?|]; simpl in *; guard_arith.
  - destruct (pending s !! i) as [[c l a|c l|c l| | | |]|] eqn:Hk; try done.
    pose proof (awaited_delete _ _ _ Hk) as Hd.
    destruct ok; simpl in *; guard_arith.
Qed.

Lemma guard_consistent_run (events : list Event) (s : State) :
  guard_consistent s → guard_consistent (run s events).
Proof.
  revert s. induction events as [|e events IH]; intros s Hs; [exact Hs|].
  rewrite run_cons. apply IH. by apply guard_consistent_step.
Qed.

Lemma guard_consistent_mount (stored : gmap string (list Z)) :
  guard_consistent (mount stored).
Proof. reflexivity. Qed.

Lemma guard_busy_while_awaited (s : State) (i : nat) (k : Suspended) :
  guard_consistent s → pending s !! i = Some k → awaited_by_update k = true →
  processingRef s = true.
Proof.
  unfold guard_consistent, awaited. intros Hs Hk Ha.
  pose proof (awaited_delete _ _ _ Hk) as Hd. rewrite Ha in Hd.
  destruct (processingRef s); [reflexivity|lia].
Qed.

(** C3.  The guard is held for the whole of [handleLocationVisit]: in every
    state reached from mounting the screen, while a call awaited by
    [handleLocationUpdate] is suspended, [processingRef] is set and a position
    update is dropped.  When the storage write succeeds the guard stays set
    with the remote call in flight; it is cleared when the tracking request
    settles, or when the storage write or the location request fails. *)
Theorem guard_held_until_visit_returns (stored : gmap string (list Z))
    (events : list Event) (i : nat) (k : Suspended) :
  let s := run (mount stored) events in
  pending s !! i = Some k → awaited_by_update k = true →
  processingRef s = true
  ∧ (∀ here, step s (PositionUpdate here) = s)
  ∧ (∀ loc array, k = Visit_setItem FromLocationUpdate loc array →
       let s1 := step s (SetItemSettled i true) in
       storage s1 !! storageKey = Some array
       ∧ pending s1 !! i = Some (Visit_updateLocationVisit FromLocationUpdate loc)
       ∧ processingRef s1 = true
       ∧ (∀ here, step s1 (PositionUpdate here) = s1)
       ∧ processingRef (step s (SetItemSettled i false)) = false)
  ∧ (∀ loc, k = Visit_updateLocationVisit FromLocationUpdate loc →
       (∀ found others,
          let s1 := step s (UpdateLocationVisitSettled i (Fulfilled (found :: others))) in
          pending s1 !! i = Some (Visit_createTracking FromLocationUpdate loc)
          ∧ processingRef s1 = true
          ∧ ∀ here, step s1 (PositionUpdate here) = s1)
       ∧ processingRef (step s (UpdateLocationVisitSettled i Rejected)) = false
       ∧ processingRef (step s (UpdateLocationVisitSettled i (Fulfilled []))) = false)
  ∧ (∀ loc ok, k = Visit_createTracking FromLocationUpdate loc →
       processingRef (step s (CreateTrackingSettled i ok)) = false).
Proof.
  intros s Hk Ha.
  assert (Hinv : guard_consistent s)
    by apply guard_consistent_run, guard_consistent_mount.
  assert (Hbusy : processingRef s = true) by by eapply guard_busy_while_awaited.
  assert (Hdrop : ∀ t, processingRef t = true → ∀ here, step t (PositionUpdate here) = t).
  { intros t Ht here. simpl. unfold Screen.handleLocationUpdate. by rewrite Ht. }
  assert (Hlt : (i < length (pending s))%nat) by by eapply lookup_lt_Some.
  split; [exact Hbusy|]. split; [by apply Hdrop|].
  split; [|split].
  - intros loc array ->. simpl. rewrite Hk. simpl.
    split; [by rewrite lookup_insert_eq|].
    split; [by apply list_lookup_insert_eq|].
    split; [exact Hbusy|]. split; [by apply Hdrop|reflexivity].
  - intros loc ->. simpl. rewrite Hk. simpl.
    split; [|by split].
    intros found others. split; [by apply list_lookup_insert_eq|].
    split; [exact Hbusy|by apply Hdrop].
  - intros loc ok ->. simpl. rewrite Hk. by destruct ok.
Qed.

(** *** Reset *)

Lemma run_split (s : State) (e1 e2 : Event) (rest : list Event) :
  run s (e1 :: e2 :: rest) = run (run s [e1; e2]) rest.
Proof. reflexivity. Qed.

Lemma reset_run (s : State) (ok : bool) :
  run s [PressReset; RemoveItemSettled (length (pending s)) ok]
  = if ok
    then Screen.fetchData projectId
           (mkState (project s) (locations s) ∅ ∅ (processingRef s)
              (currentLocationContent s) (delete storageKey (storage s))
              (requests s)
              (alerts s
               ++ [{| alert_title := "Reset Successfully";
                      alert_message :=
                        "Your access history has been cleared, you can start over!" |}])
              (pending s))
    else mkState (project s) (locations s) (visitedLocations s)
           (visitedLocationsRef s) (processingRef s) (currentLocationContent s)
           (storage s) (requests s)
           (alerts s
            ++ [{| alert_title := "Error";
                   alert_message := "Unable to reset access history." |}])
           (pending s).
Proof.
  destruct s as [p ls v r b c st rq al pd]. compute_updates.
  destruct ok; do 2 settle_next; by rewrite run_nil.
Qed.

(** [fetchData] reads: it sends GET requests only, leaves the storage and
    the visited ref alone, and sets the visited state, if at all, to the
    stored array. *)
Lemma fetchData_run (t : State) (r1 : outcome (list Project))
    (r2 : outcome (list RawLocation)) (ok3 : bool) :
  let i := length (pending t) in
  ∃ t',
    run (Screen.fetchData projectId t)
      [GetProjectSettled i r1; GetLocationsSettled i r2; GetItemSettled i ok3] = t'
    ∧ storage t' = storage t
    ∧ visitedLocationsRef t' = visitedLocationsRef t
    ∧ (visitedLocations t' = visitedLocations t
       ∨ visitedLocations t'
         = new_Set (match storage t !! storageKey with
                    | Some array => array
                    | None => []
                    end))
    ∧ ∃ sent, requests t' = requests t ++ sent ∧ Forall (λ r, method r = GET) sent.
Proof.
  intros i. subst i. destruct t as [p ls v r b c st rq al pd]. compute_updates.
  destruct r1 as [[|p0 ps]|].
  - eexists. split; [do 3 settle_next; by rewrite run_nil|]. simpl.
    do 2 (split; [reflexivity|]). split; [by left|].
    exists [get_project projectId]. split; [done|by repeat constructor].
  - destruct r2 as [all|]; [destruct ok3|].
    + eexists. split; [do 3 settle_next; by rewrite run_nil|]. simpl.
      do 2 (split; [reflexivity|]). split; [by right|].
      exists [get_project projectId; get_locations projectId].
      split; [by rewrite <- app_assoc|by repeat constructor].
    + eexists. split; [do 3 settle_next; by rewrite run_nil|]. simpl.
      do 2 (split; [reflexivity|]). split; [by left|].
      exists [get_project projectId; get_locations projectId].
      split; [by rewrite <- app_assoc|by repeat constructor].
    + eexists. split; [do 3 settle_next; by rewrite run_nil|]. simpl.
      do 2 (split; [reflexivity|]). split; [by left|].
      exists [get_project projectId; get_locations projectId].
      split; [by rewrite <- app_assoc|by repeat constructor].
  - eexists. split; [do 3 settle_next; by rewrite run_nil|]. simpl.
    do 2 (split; [reflexivity|]). split; [by left|].
    exists [get_project projectId]. split; [done|by repeat constructor].
Qed.

Lemma settlements_past_end (t : State) (r1 : outcome (list Project))
    (r2 : outcome (list RawLocation)) (ok3 : bool) :
  let i := length (pending t) in
  run t [GetProjectSettled i r1; GetLocationsSettled i r2; GetItemSettled i ok3] = t.
Proof.
  intros i. subst i. destruct t as [p ls v r b c st rq al pd]. compute_updates.
  do 3 settle_next. by rewrite run_nil.
Qed.

(** C10.  Pressing reset suspends the removal of the storage entry and
    changes nothing else.  When the removal succeeds, the entry of the project
    is deleted, the other entries are kept, and the visited state and ref are
    emptied; when it fails, storage and visited sets are as before.  Through
    the reset and the [fetchData] it starts, only GET requests are sent, so
    nothing is written to the backend, and the storage is not written
    again. *)
Theorem reset_is_local (s : State) (ok : bool)
    (r1 : outcome (list Project)) (r2 : outcome (list RawLocation)) (ok3 : bool) :
  let i := length (pending s) in
  let pressed := step s PressReset in
  let cleared := run s [PressReset; RemoveItemSettled i ok] in
  let s' :=
    run s [PressReset; RemoveItemSettled i ok;
           GetProjectSettled i r1; GetLocationsSettled i r2; GetItemSettled i ok3] in
  (requests pressed = requests s
   ∧ storage pressed = storage s
   ∧ visitedLocations pressed = visitedLocations s
   ∧ visitedLocationsRef pressed = visitedLocationsRef s)
  ∧ (if ok
     then storage cleared = delete storageKey (storage s)
          ∧ storage cleared !! storageKey = None
          ∧ (∀ key, key ≠ storageKey → storage cleared !! key = storage s !! key)
          ∧ visitedLocations cleared = ∅
          ∧ visitedLocationsRef cleared = ∅
          ∧ visitedLocations s' = ∅
          ∧ visitedLocationsRef s' = ∅
     else storage cleared = storage s
          ∧ visitedLocations cleared = visitedLocations s
          ∧ visitedLocationsRef cleared = visitedLocationsRef s
          ∧ s' = cleared)
  ∧ storage s' = storage cleared
  ∧ ∃ sent, requests s' = requests s ++ sent ∧ Forall (λ r, method r = GET) sent.
Proof.
  intros i pressed cleared s'.
  assert (Hs' : s' = run cleared [GetProjectSettled i r1; GetLocationsSettled i r2;
                                  GetItemSettled i ok3]) by apply run_split.
  assert (Hcleared := reset_run s ok). fold i cleared in Hcleared.
  clearbody s' cleared. subst pressed.
  split; [by repeat split|].
  destruct ok.
  - set (t := mkState _ _ _ _ _ _ _ _ _ _) in Hcleared.
    destruct (fetchData_run t r1 r2 ok3) as (t' & Ht' & Hst & Hr & Hv & sent & Hreq & Hget).
    change (length (pending t)) with i in Ht'.
    rewrite <- Hcleared, <- Hs' in Ht'. subst t'.
    assert (Hsc : storage cleared = delete storageKey (storage s)) by by rewrite Hcleared.
    split; [|split].
    + split; [exact Hsc|]. rewrite Hsc.
      split; [by rewrite lookup_delete_eq|].
      split; [intros key Hkey; by rewrite lookup_delete_ne|].
      do 2 (split; [by rewrite Hcleared|]).
      split; [|by rewrite Hr].
      destruct Hv as [-> | ->]; [reflexivity|].
      simpl. by rewrite lookup_delete_eq.
    + by rewrite Hst, Hsc.
    + by exists sent.
  - assert (Hi : i = length (pending cleared)) by by rewrite Hcleared.
    rewrite Hi, settlements_past_end in Hs'. subst s'.
    split; [rewrite Hcleared; by repeat split|]. split; [reflexivity|].
    exists []. rewrite Hcleared. simpl. by rewrite app_nil_r.
Qed.

(** *** Containment of the visited set *)

Lemma writes_within_delete allowed (l : list Suspended) (i : nat) :
  writes_within allowed l → writes_within allowed (delete i l).
Proof.
  intros H caller loc array Hin. eapply H, list_elem_of_delete_inv, Hin.
Qed.

Lemma writes_within_app allowed (l : list Suspended) (k : Suspended) :
  writes_within allowed l →
  (∀ caller loc array,
     k = Visit_setItem caller loc array → ∀ x, x ∈ array → x ∈ allowed) →
  writes_within allowed (l ++ [k]).
Proof.
  intros H Hk caller loc array Hin.
  apply elem_of_app in Hin as [Hin|Hin]; [by eapply H|].
  apply list_elem_of_singleton in Hin. by eapply Hk.
Qed.

Lemma writes_within_insert allowed (l : list Suspended) (i : nat) (k : Suspended) :
  writes_within allowed l →
  (∀ caller loc array, k ≠ Visit_setItem caller loc array) →
  writes_within allowed (<[i := k]> l).
Proof.
  intros H Hk caller loc array Hin.
  apply list_elem_of_lookup in Hin as [j Hj].
  destruct (decide (i = j)) as [->|Hne].
  - destruct (decide (j < length l)%nat) as [Hlt|Hge].
    + rewrite list_lookup_insert_eq in Hj by done. injection Hj as Hj.
      by destruct (Hk caller loc array).
    + rewrite list_insert_ge in Hj by lia.
      eapply H, list_elem_of_lookup_2, Hj.
  - rewrite list_lookup_insert_ne in Hj by done.
    eapply H, list_elem_of_lookup_2, Hj.
Qed.

(** Reads a field of an updated state. *)
Ltac fields :=
  cbn [project locations visitedLocations visitedLocationsRef processingRef
       currentLocationContent storage requests alerts pending
       handleLocationVisit_catch fetchData_catch Screen.fetchData
       resetVisitedLocations continue finish suspend send alert set_storage
       set_pending setCurrentLocationContent setVisitedLocations
       set_visitedLocationsRef setProject setLocations].

Lemma contained_intro allowed (s : State) :
  visitedLocations s ⊆ allowed →
  visitedLocationsRef s ⊆ allowed →
  (∀ array, storage s !! storageKey = Some array → ∀ x, x ∈ array → x ∈ allowed) →
  (∀ loc : Location, loc ∈ locations s → id loc ∈ allowed) →
  writes_within allowed (pending s) →
  contained allowed s.
Proof. intros. unfold Screen.contained. auto. Qed.

Lemma handleLocationVisit_contained allowed caller (s : State) (l : Location) :
  contained allowed s → id l ∈ allowed →
  contained allowed (handleLocationVisit caller s l).
Proof.
  intros (Hv & Hr & Hst & Hl & Hp) Hid. unfold handleLocationVisit.
  destruct (has _ _); [by destruct caller|].
  assert (Hu : visitedLocationsRef s ∪ {[ id l ]} ⊆ allowed).
  { apply union_subseteq. split; [exact Hr|]. by apply singleton_subseteq_l. }
  apply contained_intro; fields; try assumption.
  apply writes_within_app; [exact Hp|].
  intros c loc array [= _ _ <-] x Hx. apply elem_of_elements in Hx. by apply Hu.
Qed.

Lemma resume_contained allowed caller (s : State) :
  contained allowed s → contained allowed (resume caller s).
Proof. by destruct caller. Qed.

Lemma contained_step allowed (directory : list RawLocation) (s : State) (e : Event) :
  allowed = identifiers directory →
  contained allowed s → of_directory directory e → contained allowed (step s e).
Proof.
  intros Hallowed Hs He. pose proof Hs as (Hv & Hr & Hst & Hl & Hp).
  assert (Hdel : ∀ i, writes_within allowed (delete i (pending s)))
    by (intros; by apply writes_within_delete).
  assert (Hins : ∀ i k, (∀ caller loc array, k ≠ Visit_setItem caller loc array) →
                        writes_within allowed (<[i := k]> (pending s)))
    by (intros; by apply writes_within_insert).
  destruct e as [here|l| | |i ok|i r|i ok|i ok|i r|i r|i ok];
    unfold Screen.step;
    try (destruct (pending s !! i) as [[c l a|c l|c l| | | |]|] eqn:Hk;
         try exact Hs).
  - unfold Screen.handleLocationUpdate. destruct (processingRef s); [exact Hs|].
    pose proof (scan_spec (visitedLocationsRef s) here (locations s)) as Hscan.
    destruct (hit _) as [loc|]; [|exact Hs].
    destruct Hscan as (pre & post & Hsplit & _).
    apply handleLocationVisit_contained.
    + apply contained_intro; fields; assumption.
    + fields. apply Hl. rewrite Hsplit. apply elem_of_app. right. left.
  - cbn [of_directory] in He. rewrite <- Hallowed in He.
    by apply handleLocationVisit_contained.
  - apply contained_intro; fields; try assumption.
    apply writes_within_app; [exact Hp|]. intros ? ? ? [=].
  - apply contained_intro; fields; assumption.
  - destruct ok.
    + apply contained_intro; fields; try assumption.
      * intros array. rewrite lookup_insert_eq. intros [= <-].
        eapply Hp, list_elem_of_lookup_2, Hk.
      * apply Hins. intros ? ? ? [=].
    + apply resume_contained, contained_intro; fields; try assumption. apply Hdel.
  - destruct r as [[|? ?]|].
    + apply resume_contained, contained_intro; fields; try assumption. apply Hdel.
    + apply contained_intro; fields; try assumption.
      apply Hins. intros ? ? ? [=].
    + apply resume_contained, contained_intro; fields; try assumption. apply Hdel.
  - destruct ok; apply resume_contained, contained_intro; fields;
      try assumption; apply Hdel.
  - destruct ok; apply contained_intro; fields; try assumption;
      try apply empty_subseteq; try apply Hdel.
    + intros array. rewrite lookup_delete_eq. discriminate.
    + apply writes_within_app; [apply Hdel|]. intros ? ? ? [=].
  - destruct r as [[|? ?]|]; apply contained_intro; fields; try assumption;
      try apply Hdel.
    apply Hins. intros ? ? ? [=].
  - destruct r as [all|]; apply contained_intro; fields; try assumption;
      try apply Hdel.
    + cbn [of_directory] in He. subst all. intros loc Hloc.
      apply list_elem_of_In, in_map_iff in Hloc as (raw0 & <- & Hraw).
      rewrite Hallowed. unfold identifiers. apply elem_of_list_to_set.
      apply list_elem_of_In, in_map, Hraw.
    + apply Hins. intros ? ? ? [=].
  - destruct ok; apply contained_intro; fields; try assumption; try apply Hdel.
    unfold new_Set. destruct (storage s !! storageKey) as [array|] eqn:Hget.
    + intros x Hx. apply elem_of_list_to_set in Hx. by eapply Hst.
    + apply empty_subseteq.
Qed.

Lemma contained_run allowed (directory : list RawLocation) (events : list Event)
    (s : State) :
  allowed = identifiers directory →
  contained allowed s → Forall (of_directory directory) events →
  contained allowed (run s events).
Proof.
  intros Hallowed. revert s.
  induction events as [|e events IH]; intros s Hs Hall; [exact Hs|].
  inversion Hall as [|? ? He Hrest]; subst.
  rewrite run_cons. apply IH; [|exact Hrest]. by eapply contained_step.
Qed.

Lemma locations_fetched_step (directory : list RawLocation) (s : State) (e : Event) :
  locations s = [] ∨ locations s = List.map withCoords directory →
  of_directory directory e →
  locations (step s e) = [] ∨ locations (step s e) = List.map withCoords directory.
Proof.
  intros Hs He.
  destruct e as [here|l| | |i ok|i r|i ok|i ok|i r|i r|i ok]; simpl;
    try done;
    try (destruct (pending s !! i) as [[c l a|c l|c l| | | |]|]; try done).
  - unfold Screen.handleLocationUpdate. destruct (processingRef s); [done|].
    destruct (hit _); [|done]. unfold handleLocationVisit.
    destruct (has _ _); simpl; done.
  - unfold handleLocationVisit. destruct (has _ _); simpl; done.
  - destruct ok; [done|]. by destruct c.
  - destruct r as [[|? ?]|]; try done; by destruct c.
  - destruct ok; by destruct c.
  - by destruct ok.
  - by destruct r as [[|? ?]|].
  - destruct r as [all|]; [|done]. simpl in He. subst. by right.
  - by destruct ok.
Qed.


Lemma locations_fetched_run (directory : list RawLocation) (events : list Event)
    (s : State) :
  locations s = [] ∨ locations s = List.map withCoords directory →
  Forall (of_directory directory) events →
  locations (run s events) = []
  ∨ locations (run s events) = List.map withCoords directory.
Proof.
  revert s. induction events as [|e events IH]; intros s Hs Hall; [exact Hs|].
  inversion Hall as [|? ? He Hrest]; subst.
  rewrite run_cons. apply IH; [|exact Hrest]. by apply locations_fetched_step.
Qed.


End WithEnvironment.

(** ** The properties on the sample project *)

Import Fixtures.


(** The fountain is 49 m from the origin and eligible; the tower is 51 m from
    it and is not. *)
Lemma proximity_threshold_50_sample :
  (Screen.eligible gridDistance ∅ origin (withCoords fountain) = true
   ∧ hit (Screen.scan gridDistance ∅ origin [withCoords fountain])
     = Some (withCoords fountain))
  ∧ (Screen.eligible gridDistance ∅ origin (withCoords tower) = false
     ∧ hit (Screen.scan gridDistance ∅ origin [withCoords tower]) = None).
Proof.
  split.
  - apply (proximity_threshold_50 gridDistance ∅ origin (withCoords fountain) 49).
    + vm_compute. reflexivity.
    + vm_compute. reflexivity.
    + reflexivity.
  - apply (proximity_threshold_50 gridDistance ∅ origin (withCoords tower) 51).
    + vm_compute. reflexivity.
    + vm_compute. reflexivity.
    + reflexivity.
Defined.



(** The position string ["(,)"] parses to the point (0, 0), since
    [Number("")] is 0, and a device there unlocks the location. *)
Lemma blank_position_is_origin :
  position (withCoords blank) = at_grid 0 0
  ∧ hit (Screen.scan gridDistance ∅ origin [withCoords blank]) = Some (withCoords blank).
Proof. split; vm_compute; reflexivity. Qed.

(** C2.  The fountain is unlocked twice in one session.  The screen is
    mounted over an empty storage and the fountain is unlocked by proximity as
    soon as the locations are there.  The read of the stored array that
    [fetchData] started before then finds nothing and sets the visited state
    to the empty set, and the effect copies it into the ref, while the unlock
    runs to its end: the entry [[1]] is written, the location is requested,
    the visit tracked, the alert shown.  The fountain is then stored and
    recorded, but neither the state nor the ref has it, and the next position
    update unlocks it again: a second write, a second request for the
    location, a second tracking request, a second alert. *)
Theorem fountain_unlocked_twice :
  let first_unlock :=
    [GetProjectSettled 0 (Fulfilled [project_with "Points"]);
     GetLocationsSettled 0 (Fulfilled [fountain]);
     PositionUpdate origin;
     GetItemSettled 0 true;
     Commit;
     SetItemSettled 0 true;
     UpdateLocationVisitSettled 0 (Fulfilled [fountain]);
     CreateTrackingSettled 0 true] in
  let s1 := Screen.run gridDistance "7" (Screen.mount "7" ∅) first_unlock in
  let s2 := Screen.step gridDistance "7" s1 (PositionUpdate origin) in
  let s3 :=
    Screen.run gridDistance "7" s2
      [SetItemSettled 0 true;
       UpdateLocationVisitSettled 0 (Fulfilled [fountain]);
       CreateTrackingSettled 0 true] in
  (storage s1 !! "visitedLocations_7" = Some [1]
   ∧ requests s1 = [get_project "7"; get_locations "7"; get_location 1; post_tracking 1]
   ∧ alerts s1 = [unlock_alert (withCoords fountain)]
   ∧ pending s1 = []
   ∧ visitedLocations s1 = ∅
   ∧ visitedLocationsRef s1 = ∅)
  ∧ (pending s2 = [Visit_setItem FromLocationUpdate (withCoords fountain) [1]]
     ∧ s2 ≠ s1)
  ∧ (storage s3 !! "visitedLocations_7" = Some [1]
     ∧ requests s3
       = [get_project "7"; get_locations "7"; get_location 1; post_tracking 1;
          get_location 1; post_tracking 1]
     ∧ alerts s3 = [unlock_alert (withCoords fountain); unlock_alert (withCoords fountain)]
     ∧ pending s3 = []).
Proof.
  vm_compute. repeat split; try reflexivity. discriminate.
Qed.

(** The same happens to a location that the state shows as visited while the
    ref does not have it yet: the screen is mounted over a storage that holds
    the fountain, the fetch has set the state from it, and a position update
    comes before the effect has run. *)
Lemma visited_in_state_unlocked_again :
  let stored : gmap string (list Z) := {[ "visitedLocations_7" := [1] ]} in
  let s :=
    Screen.run gridDistance "7" (Screen.mount "7" stored)
      [GetProjectSettled 0 (Fulfilled [project_with "Points"]);
       GetLocationsSettled 0 (Fulfilled [fountain]);
       GetItemSettled 0 true] in
  let s' :=
    Screen.run gridDistance "7" s
      [PositionUpdate origin;
       SetItemSettled 0 true;
       UpdateLocationVisitSettled 0 (Fulfilled [fountain]);
       CreateTrackingSettled 0 true] in
  visitedLocations s = {[ 1 ]}
  ∧ visitedLocationsRef s = ∅
  ∧ requests s' = requests s ++ [get_location 1; post_tracking 1]
  ∧ alerts s' = alerts s ++ [unlock_alert (withCoords fountain)].
Proof.
  vm_compute. repeat split; reflexivity.
Qed.

(** After the fountain has been unlocked by proximity, a direct visit of the
    fountain changes nothing. *)
Lemma unlock_idempotent_sample :
  let s := Screen.run gridDistance "7" (loaded [fountain; library]) [PositionUpdate origin] in
  id (withCoords fountain) ∈ visitedLocationsRef s
  ∧ Screen.step gridDistance "7" s (ManualVisit (withCoords fountain)) = s.
Proof.
  intros s.
  assert (Hin : id (withCoords fountain) ∈ visitedLocationsRef s)
    by (apply (bool_decide_unpack _); vm_compute; exact I).
  split; [exact Hin|].
  exact (proj1 (proj1 (unlock_idempotent gridDistance "7" s (withCoords fountain)) Hin)).
Defined.

(** The fountain is unlocked, the storage write succeeds and the request for
    the location is rejected: the fountain stays visited and stored. *)
Lemma remote_failure_keeps_local_unlock_sample :
  let s := loaded [fountain] in
  let s' :=
    Screen.run gridDistance "7"
      (handleLocationVisit FromLocationUpdate s (withCoords fountain))
      (SetItemSettled 0 true :: remote_failure 0 LocationRequestRejected) in
  (id (withCoords fountain) ∉ visitedLocationsRef s)
  ∧ id (withCoords fountain) ∈ visitedLocations s'
  ∧ id (withCoords fountain) ∈ visitedLocationsRef s'.
Proof.
  intros s s'.
  assert (Hnew : id (withCoords fountain) ∉ visitedLocationsRef s)
    by apply not_elem_of_empty.
  pose proof (remote_failure_keeps_local_unlock gridDistance "7" FromLocationUpdate s
                (withCoords fountain) LocationRequestRejected Hnew) as H.
  split; [exact Hnew|]. split; [exact (proj1 H) | exact (proj1 (proj2 H))].
Defined.

(** The same run: the content of the fountain never reaches the screen. *)
Lemma remote_failure_skips_content_sample :
  let s := loaded [fountain] in
  let failed :=
    Screen.run gridDistance "7"
      (handleLocationVisit FromLocationUpdate s (withCoords fountain))
      (SetItemSettled 0 true :: remote_failure 0 LocationRequestRejected) in
  (id (withCoords fountain) ∉ visitedLocationsRef s)
  ∧ currentLocationContent failed = currentLocationContent s
  ∧ alerts failed = alerts s ++ [visit_error_alert].
Proof.
  intros s failed.
  assert (Hnew : id (withCoords fountain) ∉ visitedLocationsRef s)
    by apply not_elem_of_empty.
  pose proof (remote_failure_skips_content gridDistance "7" FromLocationUpdate s
                (withCoords fountain) LocationRequestRejected fountain [] Hnew) as H.
  split; [exact Hnew|].
  split; [exact (proj1 (proj1 H)) | exact (proj1 (proj2 (proj1 H)))].
Defined.

(** The fountain, whose content is ["<p>Fountain</p>"], is unlocked by
    proximity; the storage write and the location request succeed and the
    tracking request is rejected.  The fountain is visited and stored, the
    error alert is the only alert, no call is left suspended, and the content
    was not set. *)
Lemma content_withheld_when_tracking_fails :
  let s :=
    Screen.run gridDistance "7" (loaded [fountain])
      [PositionUpdate origin;
       SetItemSettled 0 true;
       UpdateLocationVisitSettled 0 (Fulfilled [fountain]);
       CreateTrackingSettled 0 false] in
  location_content (withCoords fountain) = Some "<p>Fountain</p>"
  ∧ visitedLocations s = {[ 1 ]}
  ∧ storage s !! "visitedLocations_7" = Some [1]
  ∧ requests s = [get_location 1; post_tracking 1]
  ∧ pending s = []
  ∧ alerts s = [visit_error_alert]
  ∧ currentLocationContent s = None
  ∧ currentLocationContent s ≠ location_content (withCoords fountain)
  ∧ (unlock_alert (withCoords fountain) ∉ alerts s).
Proof.
  vm_compute. repeat split; try reflexivity; try discriminate.
  intros H. apply list_elem_of_In in H. destruct H as [H|[]]. discriminate H.
Qed.

(** Fountain and library are both in range.  The fountain is unlocked and its
    storage write has succeeded, so the local part is complete and the
    request for the location is in flight: the guard is still set, and a
    position update from which the library is eligible is dropped. *)
Lemma guard_still_set_after_local_write :
  let s :=
    Screen.run gridDistance "7" (Screen.mount "7" ∅)
      (fetched [fountain; library] ++ [PositionUpdate origin; SetItemSettled 0 true]) in
  visitedLocations s = {[ 1 ]}
  ∧ visitedLocationsRef s = {[ 1 ]}
  ∧ storage s !! "visitedLocations_7" = Some [1]
  ∧ pending s = [Visit_updateLocationVisit FromLocationUpdate (withCoords fountain)]
  ∧ processingRef s = true
  ∧ Screen.eligible gridDistance (visitedLocationsRef s) origin (withCoords library) = true
  ∧ Screen.step gridDistance "7" s (PositionUpdate origin) = s.
Proof.
  vm_compute. repeat split; reflexivity.
Qed.

(** The same state, reached from mounting the screen. *)
Lemma guard_held_until_visit_returns_sample :
  let events :=
    fetched [fountain; library] ++ [PositionUpdate origin; SetItemSettled 0 true] in
  let k := Visit_updateLocationVisit FromLocationUpdate (withCoords fountain) in
  let s := Screen.run gridDistance "7" (Screen.mount "7" ∅) events in
  pending s !! 0%nat = Some k
  ∧ awaited_by_update k = true
  ∧ processingRef s = true
  ∧ ∀ here, Screen.step gridDistance "7" s (PositionUpdate here) = s.
Proof.
  intros events k s.
  assert (Hk : pending s !! 0%nat = Some k) by (vm_compute; reflexivity).
  assert (Ha : awaited_by_update k = true) by reflexivity.
  pose proof (guard_held_until_visit_returns gridDistance "7" ∅ events 0 k Hk Ha) as H.
  split; [exact Hk|]. split; [exact Ha|].
  split; [exact (proj1 H) | exact (proj1 (proj2 H))].
Defined.



(** Reset after the fountain has been unlocked and recorded. *)
Lemma reset_is_local_sample :
  let s :=
    Screen.run gridDistance "7" (loaded [fountain])
      [PositionUpdate origin;
       SetItemSettled 0 true;
       UpdateLocationVisitSettled 0 (Fulfilled [fountain]);
       CreateTrackingSettled 0 true] in
  let s' :=
    Screen.run gridDistance "7" s
      [PressReset; RemoveItemSettled (length (pending s)) true;
       GetProjectSettled (length (pending s)) (Fulfilled [project_with "Points"]);
       GetLocationsSettled (length (pending s)) (Fulfilled [fountain]);
       GetItemSettled (length (pending s)) true] in
  ∃ sent, requests s' = requests s ++ sent ∧ Forall (λ r, method r = GET) sent.
Proof.
  intros s s'.
  exact (proj2 (proj2 (proj2
           (reset_is_local gridDistance "7" s true (Fulfilled [project_with "Points"])
              (Fulfilled [fountain]) true)))).
Defined.

End Properties.

(** ** Further properties of the code *)

Module Coverage.
Import Api Screen Totals Notions.

Section WithScreen.

Variable getDistance : Coordinates -> Coordinates -> JS.number.
Variable projectId : string.

Local Abbreviation eligible := (Screen.eligible getDistance).
Local Abbreviation scan := (Screen.scan getDistance).
Local Abbreviation handleLocationUpdate := (Screen.handleLocationUpdate getDistance).
Local Abbreviation step := (Screen.step getDistance projectId).
Local Abbreviation run := (Screen.run getDistance projectId).
Local Abbreviation storageKey := (Screen.storageKey projectId).
Local Abbreviation mount := (Screen.mount projectId).

(** *** What [parsePositionString] returns *)

Lemma split_chars_length (cur l : list ascii) :
  length (JS.split_chars 44 cur l)
  = S (length (List.filter (fun c => JS.code c =? 44) l)).
Proof.
  revert cur. induction l as [|c l IH]; intros cur; simpl; [reflexivity|].
  destruct (JS.code c =? 44); simpl; by rewrite IH.
Qed.

Lemma strip_parens_commas (s : string) :
  List.filter (fun c => JS.code c =? 44) (JS.chars (JS.strip_parens s))
  = List.filter (fun c => JS.code c =? 44) (JS.chars s).
Proof.
  unfold JS.strip_parens, JS.chars, JS.text.
  rewrite list_ascii_of_string_of_list_ascii.
  induction (list_ascii_of_string s) as [|c l IH]; simpl; [reflexivity|].
  destruct (JS.code c =? 40) eqn:H40; simpl.
  - apply Z.eqb_eq in H40. rewrite H40. simpl. exact IH.
  - destruct (JS.code c =? 41) eqn:H41; simpl.
    + apply Z.eqb_eq in H41. rewrite H41. simpl. exact IH.
    + destruct (JS.code c =? 44); simpl; by rewrite IH.
Qed.

(** The parts of a position string are one more than its commas. *)
Lemma split_comma_parts (s : string) :
  length (JS.split_chars 44 [] (JS.chars (JS.strip_parens s))) = S (commas s).
Proof.
  rewrite split_chars_length, strip_parens_commas. reflexivity.
Qed.

(** X1.  For a string that is not empty, [parsePositionString] returns a
    number as latitude (possibly [NaN]), never [null]; the longitude is
    [undefined] when the string has no comma and a number when it has one. *)
Theorem parsePositionString_shape (s : string) :
  s ≠ ""%string →
  (∃ n, latitude (parsePositionString (Some s)) = JS.Num n)
  ∧ (commas s = 0%nat → longitude (parsePositionString (Some s)) = JS.Undefined)
  ∧ (commas s ≠ 0%nat → ∃ m, longitude (parsePositionString (Some s)) = JS.Num m).
Proof.
  intros Hs. unfold parsePositionString.
  destruct (String.eqb_spec s ""); [done|].
  cbn [latitude longitude].
  pose proof (split_comma_parts s) as Hlen.
  unfold JS.split_comma.
  destruct (JS.split_chars 44 [] (JS.chars (JS.strip_parens s))) as [|a [|b rest]];
    simpl in Hlen; [discriminate| |].
  - split; [by eexists|]. split; [reflexivity|]. intros H. lia.
  - split; [by eexists|]. split; [intros H; lia|]. intros _. by eexists.
Qed.

(** X2.  A location whose position string is absent, empty or without a
    comma is left out by the loop of [handleLocationUpdate]: whatever the
    visited set, the position of the device and the list, no distance to it
    is computed and it is not the location unlocked. *)
Theorem positionless_location_excluded (loc : RawLocation) :
  location_position loc = None
  ∨ location_position loc = Some ""%string
  ∨ (∃ s, location_position loc = Some s ∧ commas s = 0%nat) →
  ∀ visited here (ls : list Location),
    (withCoords loc ∉ measured (scan visited here ls))
    ∧ hit (scan visited here ls) ≠ Some (withCoords loc).
Proof.
  intros Hpos visited here ls.
  apply Properties.null_coordinates_excluded.
  unfold withCoords. cbn [position latitude longitude].
  destruct Hpos as [-> | [-> | (s & -> & Hs)]]; [by left|by left|].
  right. unfold parsePositionString.
  destruct (String.eqb_spec s "") as [->|Hne]; [reflexivity|].
  cbn [longitude].
  pose proof (split_comma_parts s) as Hlen. rewrite Hs in Hlen.
  unfold JS.split_comma.
  destruct (JS.split_chars 44 [] (JS.chars (JS.strip_parens s))) as [|a [|b rest]];
    simpl in Hlen; [discriminate|reflexivity|discriminate].
Qed.

(** *** Totals *)

Lemma sum_filter_le (f : RawLocation → Z) (P : RawLocation → bool) (ls : list RawLocation) :
  (∀ l, l ∈ ls → 0 ≤ f l) →
  0 ≤ foldr Z.add 0 (List.map f (List.filter P ls))
  ∧ foldr Z.add 0 (List.map f (List.filter P ls)) ≤ foldr Z.add 0 (List.map f ls).
Proof.
  induction ls as [|l ls IH]; intros Hpos; simpl; [lia|].
  assert (Hl : 0 ≤ f l) by (apply Hpos; left).
  destruct IH as [IH1 IH2]; [intros; apply Hpos; by right|].
  destruct (P l); simpl; lia.
Qed.

Lemma sum_filter_all (f : RawLocation → Z) (P : RawLocation → bool) (ls : list RawLocation) :
  (∀ l, l ∈ ls → P l = true) →
  foldr Z.add 0 (List.map f (List.filter P ls)) = foldr Z.add 0 (List.map f ls).
Proof.
  induction ls as [|l ls IH]; intros Hall; simpl; [reflexivity|].
  rewrite (Hall l) by left. simpl. rewrite IH; [reflexivity|].
  intros; apply Hall; by right.
Qed.

Lemma totalPossiblePoints_sum (ls : list RawLocation) :
  totalPossiblePoints ls
  = foldr Z.add 0 (List.map (fun loc => or_zero (score_points loc)) ls).
Proof.
  unfold totalPossiblePoints. rewrite Properties.fold_left_add_points. lia.
Qed.

(** X3.  What [getTotalPoints] returns for a visited array never exceeds
    what [getTotalPossiblePoints] returns for the same project and locations,
    and is not negative, provided that, when the project is scored by points,
    no location has negative points and, when it is scored by sequence (where
    the total is the length of the array, repetitions counted), the array
    repeats no identifier and holds identifiers of the locations only.  A
    project of any other scoring type gets 0 of 0. *)
Theorem earned_at_most_possible (p0 : Project) (others : list Project)
    (ls : list RawLocation) (visitedArray : list Z) :
  (scoring_mode p0 = Some Points → ∀ l, l ∈ ls → 0 ≤ or_zero (score_points l)) →
  (scoring_mode p0 = Some Sequence →
   NoDup visitedArray ∧ ∀ x, x ∈ visitedArray → x ∈ identifiers ls) →
  ∃ earned possible,
    getTotalPoints (Fulfilled (p0 :: others)) (Fulfilled ls) visitedArray
    = Fulfilled earned
    ∧ getTotalPossiblePoints (Fulfilled (p0 :: others)) (Fulfilled ls)
      = Fulfilled possible
    ∧ 0 ≤ earned ≤ possible.
Proof.
  unfold scoring_mode, getTotalPoints, getTotalPossiblePoints.
  intros Hpos Hseq.
  destruct (_ || _).
  - do 2 eexists. do 2 (split; [reflexivity|]).
    destruct (Hseq eq_refl) as [Hnodup Hin].
    assert (Hsub : visitedArray ⊆+ List.map id ls).
    { apply NoDup_submseteq; [exact Hnodup|].
      intros x Hx. apply Hin in Hx. unfold identifiers in Hx.
      by apply elem_of_list_to_set in Hx. }
    apply submseteq_length in Hsub. rewrite length_map in Hsub. lia.
  - destruct (String.eqb _ "points").
    + do 2 eexists. do 2 (split; [reflexivity|]).
      rewrite !Properties.fold_left_add_points.
      pose proof (sum_filter_le (fun loc => or_zero (score_points loc))
                    (fun loc => includes visitedArray (id loc)) ls (Hpos eq_refl)).
      lia.
    + exists 0, 0. do 2 (split; [reflexivity|]). lia.
Qed.

(** X4.  The points of the home screen are those of its visited locations:
    with no negative points they lie between 0 and [totalPossiblePoints],
    which they reach when every location is visited; identifiers that belong
    to no location add nothing. *)
Theorem screen_points_bounds (ls : list RawLocation) (visited : gset Z) :
  (∀ l, l ∈ ls → 0 ≤ or_zero (score_points l)) →
  0 ≤ calculatePoints (List.map withCoords ls) visited ≤ totalPossiblePoints ls
  ∧ (identifiers ls ⊆ visited →
     calculatePoints (List.map withCoords ls) visited = totalPossiblePoints ls)
  ∧ calculatePoints (List.map withCoords ls) visited
    = calculatePoints (List.map withCoords ls) (visited ∩ identifiers ls).
Proof.
  intros Hpos. unfold calculatePoints.
  rewrite !Properties.calculatePoints_from, totalPossiblePoints_sum. simpl.
  split; [|split].
  - pose proof (sum_filter_le (fun loc => or_zero (score_points loc))
                  (fun loc => bool_decide (id loc ∈ visited)) ls Hpos). lia.
  - intros Hall. rewrite sum_filter_all; [lia|].
    intros l Hl. apply bool_decide_eq_true_2, Hall.
    unfold identifiers. apply elem_of_list_to_set, list_elem_of_In, in_map.
    by apply list_elem_of_In.
  - f_equal. f_equal. f_equal. apply List.filter_ext_in. intros l Hl.
    apply bool_decide_ext. rewrite elem_of_intersection.
    split; [|tauto]. intros Hv. split; [exact Hv|].
    unfold identifiers. by apply elem_of_list_to_set, list_elem_of_In, in_map.
Qed.

Lemma ScoreTotal_add (ls : list RawLocation) (visited : gset Z) (l : RawLocation) :
  NoDup (List.map id ls) → l ∈ ls → id l ∉ visited →
  ScoreTotal Points ls (visited ∪ {[ id l ]})
  = ScoreTotal Points ls visited + or_zero (score_points l).
Proof.
  unfold ScoreTotal.
  induction ls as [|l0 ls IH]; intros Hnd Hin Hnew; [by apply elem_of_nil in Hin|].
  simpl in Hnd. apply NoDup_cons in Hnd as [Hl0 Hnd].
  assert (Hother : ∀ l', l' ∈ ls → id l' ≠ id l0).
  { intros l' Hl' Heq. apply Hl0. rewrite <- Heq.
    by apply list_elem_of_In, in_map, list_elem_of_In. }
  apply elem_of_cons in Hin as [->|Hin]; simpl.
  - rewrite (bool_decide_eq_true_2 (id l0 ∈ visited ∪ {[id l0]}))
      by (apply elem_of_union_r; by apply elem_of_singleton).
    rewrite (bool_decide_eq_false_2 _ Hnew). simpl.
    rewrite (List.filter_ext_in _ (fun loc => bool_decide (id loc ∈ visited))); [lia|].
    intros l' Hl'. apply bool_decide_ext. rewrite elem_of_union, elem_of_singleton.
    split; [|tauto]. intros [?|Heq]; [done|].
    by destruct (Hother l' (proj2 (list_elem_of_In _ _) Hl')).
  - specialize (IH Hnd Hin Hnew).
    assert (Hne : id l0 ≠ id l) by (intros Heq; by apply (Hother l Hin)).
    rewrite (bool_decide_ext (id l0 ∈ visited ∪ {[id l]}) (id l0 ∈ visited)).
    + destruct (bool_decide (id l0 ∈ visited)); simpl; lia.
    + rewrite elem_of_union, elem_of_singleton. tauto.
Qed.

(** X5.  On a screen whose locations have distinct identifiers and whose
    visited state and ref agree, unlocking a location that is not visited,
    directly or by a position update, raises the points by exactly the
    points of that location. *)
Theorem unlock_adds_its_points (s : State) (ls : list RawLocation) (loc : RawLocation) :
  locations s = List.map withCoords ls →
  NoDup (List.map id ls) →
  loc ∈ ls →
  visitedLocations s = visitedLocationsRef s →
  id loc ∉ visitedLocationsRef s →
  (∀ caller,
     points (handleLocationVisit caller s (withCoords loc))
     = points s + or_zero (score_points loc))
  ∧ (∀ here, processingRef s = false →
             hit (scan (visitedLocationsRef s) here (locations s)) = Some (withCoords loc) →
             points (step s (PositionUpdate here))
             = points s + or_zero (score_points loc)).
Proof.
  intros Hls Hnd Hin Hsync Hnew.
  assert (Hvisit : ∀ caller b,
             points (handleLocationVisit caller (set_processingRef b s) (withCoords loc))
             = points s + or_zero (score_points loc)).
  { intros caller b.
    rewrite Properties.handleLocationVisit_fresh by exact Hnew.
    unfold points, calculatePoints.
    cbn [locations visitedLocations visitedLocationsRef set_processingRef].
    change (id (withCoords loc)) with (id loc).
    rewrite Hls, Hsync, !Properties.calculatePoints_from.
    rewrite (ScoreTotal_add ls _ loc Hnd Hin Hnew). lia. }
  split.
  - intros caller. destruct s. apply (Hvisit caller _).
  - intros here Hidle Hhit. cbn [Screen.step]. unfold Screen.handleLocationUpdate.
    rewrite Hidle, Hhit. apply Hvisit.
Qed.

(** X6.  [getTotalPoints] is rejected exactly when the project request is
    rejected or finds no project, or when the project is scored by points
    and the locations request is rejected; [getTotalPossiblePoints] is
    rejected in those cases and also when the project is scored by sequence
    and the locations request is rejected.  A project with any other scoring
    type gets 0 from both. *)
Theorem totals_rejections (project : outcome (list Project))
    (ls : outcome (list RawLocation)) (visitedArray : list Z) :
  (getTotalPoints project ls visitedArray = Rejected
   ↔ project = Rejected ∨ project = Fulfilled []
     ∨ ∃ p0 others, project = Fulfilled (p0 :: others)
                    ∧ scoring_mode p0 = Some Points ∧ ls = Rejected)
  ∧ (getTotalPossiblePoints project ls = Rejected
     ↔ project = Rejected ∨ project = Fulfilled []
       ∨ ∃ p0 others mode, project = Fulfilled (p0 :: others)
                           ∧ scoring_mode p0 = Some mode ∧ ls = Rejected)
  ∧ (∀ p0 others, project = Fulfilled (p0 :: others) → scoring_mode p0 = None →
       getTotalPoints project ls visitedArray = Fulfilled 0
       ∧ getTotalPossiblePoints project ls = Fulfilled 0).
Proof.
  unfold getTotalPoints, getTotalPossiblePoints, scoring_mode.
  destruct project as [[|p0 others]|].
  - repeat split; try tauto; try discriminate.
  - destruct (_ || _) eqn:Hseq; [|destruct (String.eqb _ "points") eqn:Hpts].
    + split; [|split].
      * split; [discriminate|].
        intros [?|[?|(? & ? & [= <- <-] & Hm & _)]]; try discriminate.
        rewrite Hseq in Hm. discriminate.
      * destruct ls; split; try discriminate.
        -- intros [?|[?|(? & ? & ? & _ & _ & ?)]]; discriminate.
        -- intros _. right. right. exists p0, others, Sequence.
           by rewrite Hseq.
        -- reflexivity.
      * intros ? ? [= <- <-]. by rewrite Hseq.
    + split; [|split].
      * destruct ls; split; try discriminate.
        -- intros [?|[?|(? & ? & ? & _ & ?)]]; discriminate.
        -- intros _. right. right. exists p0, others. by rewrite Hseq, Hpts.
        -- reflexivity.
      * destruct ls; split; try discriminate.
        -- intros [?|[?|(? & ? & ? & _ & _ & ?)]]; discriminate.
        -- intros _. right. right. exists p0, others, Points. by rewrite Hseq, Hpts.
        -- reflexivity.
      * intros ? ? [= <- <-]. by rewrite Hseq, Hpts.
    + split; [|split].
      * split; [discriminate|].
        intros [?|[?|(? & ? & [= <- <-] & Hm & _)]]; try discriminate.
        rewrite Hseq, Hpts in Hm. discriminate.
      * split; [discriminate|].
        intros [?|[?|(? & ? & ? & [= <- <-] & Hm & _)]]; try discriminate.
        rewrite Hseq, Hpts in Hm. discriminate.
      * done.
  - repeat split; try tauto; try discriminate.
Qed.

(** *** Runs of [fetchData] and of the storage write *)

(** Evaluates the record updates on a state given by its fields. *)
Ltac eval_updates :=
  cbv beta iota zeta
    delta [handleLocationVisit_catch fetchData_catch Screen.fetchData
           resetVisitedLocations continue finish suspend send alert set_storage
           set_pending setCurrentLocationContent setVisitedLocations
           set_visitedLocationsRef setProject setLocations
           project locations visitedLocations visitedLocationsRef processingRef
           currentLocationContent storage requests alerts pending].

(** Delivers the next event of a run to the call suspended last, or to no
    call when none is left at its index. *)
Ltac deliver :=
  rewrite Properties.run_cons; unfold Screen.step at 1; eval_updates;
  rewrite ?Properties.lookup_suspended, ?Properties.lookup_past_end; eval_updates;
  rewrite ?Properties.continue_suspended, ?Properties.finish_suspended.

Lemma fetchData_outcome (t : State) (r1 : outcome (list Project))
    (r2 : outcome (list RawLocation)) (ok3 : bool) :
  let i := length (pending t) in
  run (Screen.fetchData projectId t)
    [GetProjectSettled i r1; GetLocationsSettled i r2; GetItemSettled i ok3]
  = match r1, r2, ok3 with
    | Fulfilled (p0 :: _), Fulfilled allLocations, true =>
        mkState (Some p0) (List.map withCoords allLocations)
          (new_Set (match storage t !! storageKey with
                    | Some array => array
                    | None => []
                    end))
          (visitedLocationsRef t) (processingRef t) (currentLocationContent t)
          (storage t)
          (requests t ++ [get_project projectId; get_locations projectId])
          (alerts t) (pending t)
    | Fulfilled (p0 :: _), Fulfilled allLocations, false =>
        mkState (Some p0) (List.map withCoords allLocations)
          (visitedLocations t) (visitedLocationsRef t) (processingRef t)
          (currentLocationContent t) (storage t)
          (requests t ++ [get_project projectId; get_locations projectId])
          (alerts t
           ++ [{| alert_title := "Error";
                  alert_message := "Unable to load project or location data." |}])
          (pending t)
    | Fulfilled (p0 :: _), Rejected, _ =>
        mkState (Some p0) (locations t) (visitedLocations t)
          (visitedLocationsRef t) (processingRef t) (currentLocationContent t)
          (storage t)
          (requests t ++ [get_project projectId; get_locations projectId])
          (alerts t
           ++ [{| alert_title := "Error";
                  alert_message := "Unable to load project or location data." |}])
          (pending t)
    | Fulfilled [], _, _ =>
        mkState None (locations t) (visitedLocations t) (visitedLocationsRef t)
          (processingRef t) (currentLocationContent t) (storage t)
          (requests t ++ [get_project projectId])
          (alerts t
           ++ [{| alert_title := "Error"; alert_message := "Project not found." |}])
          (pending t)
    | Rejected, _, _ =>
        mkState (project t) (locations t) (visitedLocations t)
          (visitedLocationsRef t) (processingRef t) (currentLocationContent t)
          (storage t)
          (requests t ++ [get_project projectId])
          (alerts t
           ++ [{| alert_title := "Error";
                  alert_message := "Unable to load project or location data." |}])
          (pending t)
    end.
Proof.
  intros i. subst i. destruct t as [p ls v r b c st rq al pd]. eval_updates.
  destruct r1 as [[|p0 ps]|]; [| |];
    [|destruct r2 as [all|]; [destruct ok3|]|];
    do 3 deliver; rewrite Properties.run_nil, <- ?app_assoc; reflexivity.
Qed.

Lemma storage_write_outcome caller (s : State) (l : Location) (ok : bool) :
  id l ∉ visitedLocationsRef s →
  let updated := visitedLocationsRef s ∪ {[ id l ]} in
  run (handleLocationVisit caller s l) [SetItemSettled (length (pending s)) ok]
  = if ok
    then mkState (project s) (locations s) updated updated (processingRef s)
           (currentLocationContent s)
           (<[storageKey := Array_from updated]> (storage s))
           (requests s ++ [get_location (id l)]) (alerts s)
           (pending s ++ [Visit_updateLocationVisit caller l])
    else resume caller
           (mkState (project s) (locations s) updated updated (processingRef s)
              (currentLocationContent s) (storage s) (requests s)
              (alerts s ++ [visit_error_alert]) (pending s)).
Proof.
  intros Hnew updated. subst updated.
  rewrite (Properties.handleLocationVisit_fresh _ _ _ Hnew).
  destruct s as [p ls v r b c st rq al pd]. eval_updates.
  destruct ok; deliver; by rewrite Properties.run_nil.
Qed.

Lemma run_then (s : State) (e1 e2 e3 e4 : Event) :
  run s [e1; e2; e3; e4] = step (run s [e1; e2; e3]) e4.
Proof. reflexivity. Qed.

Lemma calculatePoints_empty (ls : list Location) : calculatePoints ls ∅ = 0.
Proof.
  unfold calculatePoints. generalize 0.
  induction ls as [|l ls IH]; intros a; cbn [fold_left]; [reflexivity|].
  cbv beta. unfold has at 2.
  rewrite (bool_decide_eq_false_2 (id l ∈ (∅ : gset Z))) by apply not_elem_of_empty.
  apply IH.
Qed.

(** X7.  [fetchData], started in any state and with its three awaits
    settled, never changes the storage, the visited ref or the other
    suspended calls.  When all three succeed, the project and the parsed
    locations are set and the visited state is the set of the stored array,
    empty when the key is missing; when one fails, the visited state is left
    as it was and one error alert is shown. *)
Theorem fetchData_contract (t : State) (r1 : outcome (list Project))
    (r2 : outcome (list RawLocation)) (ok3 : bool) :
  let i := length (pending t) in
  let t' :=
    run (Screen.fetchData projectId t)
      [GetProjectSettled i r1; GetLocationsSettled i r2; GetItemSettled i ok3] in
  storage t' = storage t
  ∧ visitedLocationsRef t' = visitedLocationsRef t
  ∧ pending t' = pending t
  ∧ (∀ p0 others allLocations,
       r1 = Fulfilled (p0 :: others) → r2 = Fulfilled allLocations → ok3 = true →
       project t' = Some p0
       ∧ locations t' = List.map withCoords allLocations
       ∧ alerts t' = alerts t
       ∧ (∀ array, storage t !! storageKey = Some array →
                   visitedLocations t' = new_Set array)
       ∧ (storage t !! storageKey = None → visitedLocations t' = ∅))
  ∧ (r1 = Rejected ∨ r1 = Fulfilled [] ∨ r2 = Rejected ∨ ok3 = false →
     visitedLocations t' = visitedLocations t
     ∧ ∃ a, alerts t' = alerts t ++ [a] ∧ alert_title a = "Error"%string).
Proof.
  intros i t'. subst t' i. rewrite fetchData_outcome.
  destruct r1 as [[|p0 ps]|]; [| |];
    [|destruct r2 as [all|]; [destruct ok3|]|];
    cbn [project locations visitedLocations visitedLocationsRef storage alerts pending];
    (do 3 (split; [reflexivity|])); split;
    try (intros p1 o1 a1 H1 H2 H3; discriminate H1 || discriminate H2 || discriminate H3);
    try (intros _; split; [reflexivity|by eexists]).
  - intros p1 o1 a1 [= <- <-] [= <-] _. do 3 (split; [reflexivity|]).
    split; [by intros array ->|by intros ->].
  - intros [?|[?|[?|?]]]; discriminate.
Qed.

(** X8.  An unlock survives a restart: once the storage write of an unlock
    has succeeded, a screen mounted over that storage, with its fetch
    settled and its effect run, has as visited state and ref the set that
    was in memory at the unlock, the new identifier included. *)
Theorem unlock_survives_restart caller (s : State) (l : Location)
    (p0 : Project) (others : list Project) (allLocations : list RawLocation) :
  id l ∉ visitedLocationsRef s →
  let written :=
    run (handleLocationVisit caller s l) [SetItemSettled (length (pending s)) true] in
  let restarted :=
    run (mount (storage written))
      [GetProjectSettled 0 (Fulfilled (p0 :: others));
       GetLocationsSettled 0 (Fulfilled allLocations);
       GetItemSettled 0 true;
       Commit] in
  visitedLocations restarted = visitedLocationsRef s ∪ {[ id l ]}
  ∧ visitedLocationsRef restarted = visitedLocationsRef s ∪ {[ id l ]}
  ∧ storage restarted = storage written.
Proof.
  intros Hnew written restarted. subst restarted written.
  rewrite (storage_write_outcome caller s l true Hnew).
  cbn [storage].
  rewrite run_then.
  unfold Screen.mount.
  match goal with
  | |- context [Screen.fetchData projectId ?t0] =>
      pose proof (fetchData_outcome t0 (Fulfilled (p0 :: others))
                    (Fulfilled allLocations) true) as Hfetch
  end.
  cbv zeta in Hfetch. cbn [pending length] in Hfetch. rewrite Hfetch. clear Hfetch.
  cbn [Screen.step set_visitedLocationsRef storage visitedLocations visitedLocationsRef
       processingRef currentLocationContent requests alerts pending project locations].
  rewrite lookup_insert_eq.
  unfold new_Set, Array_from. rewrite list_to_set_elements_L.
  by repeat split.
Qed.

(** X9.  After a successful reset the points are 0 and nothing is visited,
    so every location can be unlocked again: an unlock of any location is
    started, and the array it writes holds that location alone. *)
Theorem reset_then_unlock_again caller (s : State) (l : Location) :
  let cleared := run s [PressReset; RemoveItemSettled (length (pending s)) true] in
  let again := handleLocationVisit caller cleared l in
  points cleared = 0
  ∧ visitedLocations cleared = ∅
  ∧ visitedLocationsRef cleared = ∅
  ∧ storage cleared !! storageKey = None
  ∧ visitedLocations again = {[ id l ]}
  ∧ visitedLocationsRef again = {[ id l ]}
  ∧ Visit_setItem caller l [id l] ∈ pending again.
Proof.
  intros cleared again. subst again cleared.
  rewrite (Properties.reset_run getDistance projectId s true).
  unfold Screen.fetchData, suspend, send, set_pending, points.
  cbn [locations visitedLocations visitedLocationsRef storage pending project
       processingRef currentLocationContent requests alerts].
  split; [apply calculatePoints_empty|]. do 2 (split; [reflexivity|]).
  split; [by rewrite lookup_delete_eq|].
  rewrite Properties.handleLocationVisit_fresh by apply not_elem_of_empty.
  cbn [visitedLocations visitedLocationsRef pending].
  rewrite (left_id_L ∅ (∪)).
  do 2 (split; [reflexivity|]).
  unfold Array_from. rewrite elements_singleton.
  apply elem_of_app. right. by apply list_elem_of_singleton.
Qed.

(** X10.  When the storage write of an unlock fails, the identifier stays in
    the visited state and ref, nothing is stored and no request is sent to
    the backend; the error alert is shown, the call is over, and a guard
    held for it is released. *)
Theorem storage_failure_keeps_memory caller (s : State) (l : Location) :
  id l ∉ visitedLocationsRef s →
  let s' :=
    run (handleLocationVisit caller s l) [SetItemSettled (length (pending s)) false] in
  visitedLocations s' = visitedLocationsRef s ∪ {[ id l ]}
  ∧ visitedLocationsRef s' = visitedLocationsRef s ∪ {[ id l ]}
  ∧ storage s' = storage s
  ∧ requests s' = requests s
  ∧ alerts s' = alerts s ++ [visit_error_alert]
  ∧ pending s' = pending s
  ∧ currentLocationContent s' = currentLocationContent s
  ∧ (caller = FromLocationUpdate → processingRef s' = false).
Proof.
  intros Hnew s'. subst s'.
  rewrite (storage_write_outcome caller s l false Hnew).
  destruct caller; cbn; repeat split; try reflexivity; discriminate.
Qed.

(** *** What single events do to the visited sets and the storage *)

(** Reads a field of an updated state. *)
Ltac read_fields :=
  cbn [project locations visitedLocations visitedLocationsRef processingRef
       currentLocationContent storage requests alerts pending resume
       handleLocationVisit_catch fetchData_catch Screen.fetchData
       resetVisitedLocations continue finish suspend send alert set_storage
       set_pending setCurrentLocationContent setVisitedLocations
       set_visitedLocationsRef set_processingRef setProject setLocations].

(** Splits a step into the cases of the source: the event, the suspended
    call it finds, how the awaited operation settled, who awaits the call. *)
Ltac step_cases s e :=
  destruct e as [here|l| | |i ok|i r|i ok|i ok|i r|i r|i ok];
  unfold Screen.step;
  [ unfold Screen.handleLocationUpdate;
    destruct (processingRef s) eqn:Hbusy;
    [|destruct (hit _) as [loc|] eqn:Hhit;
      [unfold handleLocationVisit; destruct (has _ _) eqn:Hhas|]]
  | unfold handleLocationVisit; destruct (has _ _) eqn:Hhas
  | | 
  | destruct (pending s !! i) as [[c l a|c l|c l| | | |]|] eqn:Hk;
    try destruct ok; try destruct c
  | destruct (pending s !! i) as [[c l a|c l|c l| | | |]|] eqn:Hk;
    try destruct r as [[|? ?]|]; try destruct c
  | destruct (pending s !! i) as [[c l a|c l|c l| | | |]|] eqn:Hk;
    try destruct ok; try destruct c
  | destruct (pending s !! i) as [[c l a|c l|c l| | | |]|] eqn:Hk;
    try destruct ok
  | destruct (pending s !! i) as [[c l a|c l|c l| | | |]|] eqn:Hk;
    try destruct r as [[|? ?]|]
  | destruct (pending s !! i) as [[c l a|c l|c l| | | |]|] eqn:Hk;
    try destruct r as [?|]
  | destruct (pending s !! i) as [[c l a|c l|c l| | | |]|] eqn:Hk;
    try destruct ok ];
  read_fields.

(** X11.  The visited state and the visited ref agree after the effect that
    copies one into the other, and every event keeps them in agreement
    except the successful read of the stored array by [fetchData], which
    sets the state alone. *)
Theorem state_and_ref_agree (s : State) (e : Event) :
  (∀ i, e ≠ GetItemSettled i true) →
  visitedLocations s = visitedLocationsRef s →
  visitedLocations (step s e) = visitedLocationsRef (step s e)
  ∧ visitedLocations (step s Commit) = visitedLocationsRef (step s Commit).
Proof.
  intros Hread Hsync. split; [|reflexivity].
  step_cases s e; try exact Hsync; try reflexivity.
  by destruct (Hread i).
Qed.

(** X12.  The visited ref loses an identifier only by a successful reset or
    by the effect that copies the state into it: every other event leaves
    it as it was or adds the identifier of the location being unlocked. *)
Theorem visited_ref_grows (s : State) (e : Event) :
  e ≠ Commit →
  (∀ i, e ≠ RemoveItemSettled i true) →
  visitedLocationsRef s ⊆ visitedLocationsRef (step s e)
  ∧ (visitedLocationsRef (step s e) = visitedLocationsRef s
     ∨ ∃ l : Location,
         (id l ∉ visitedLocationsRef s)
         ∧ visitedLocationsRef (step s e) = visitedLocationsRef s ∪ {[ id l ]}).
Proof.
  intros Hcommit Hreset.
  assert (Hadd : ∀ l : Location,
             has (visitedLocationsRef s) (id l) = false →
             visitedLocationsRef s ⊆ visitedLocationsRef s ∪ {[ id l ]}
             ∧ (visitedLocationsRef s ∪ {[ id l ]} = visitedLocationsRef s
                ∨ ∃ l' : Location,
                    (id l' ∉ visitedLocationsRef s)
                    ∧ visitedLocationsRef s ∪ {[ id l ]}
                      = visitedLocationsRef s ∪ {[ id l' ]})).
  { intros l Hhas. split; [apply union_subseteq_l|]. right. exists l.
    split; [|reflexivity]. unfold has in Hhas. by apply bool_decide_eq_false in Hhas. }
  step_cases s e; try (split; [reflexivity|by left]); try (by apply Hadd).
  - by destruct Hcommit.
  - by destruct (Hreset i).
Qed.

(** X13.  The screen writes no storage entry but that of its project: every
    event leaves the entries of the other keys as they are, and the storage
    as a whole unless it is the success of a storage write or of the removal
    of a reset. *)
Theorem storage_of_other_projects_kept (s : State) (e : Event) (key : string) :
  key ≠ storageKey →
  storage (step s e) !! key = storage s !! key
  ∧ ((∀ i, e ≠ SetItemSettled i true) → (∀ i, e ≠ RemoveItemSettled i true) →
     storage (step s e) = storage s).
Proof.
  intros Hkey. split.
  - step_cases s e; try reflexivity.
    + by rewrite lookup_insert_ne.
    + by rewrite lookup_insert_ne.
    + by rewrite lookup_delete_ne.
  - intros Hset Hremove.
    step_cases s e; try reflexivity;
      try (by destruct (Hset i)); by destruct (Hremove i).
Qed.

(** *** The guard and the requests over whole sessions *)

Lemma awaited_found (l : list Suspended) :
  (0 < length (List.filter awaited_by_update l))%nat →
  ∃ i k, l !! i = Some k ∧ awaited_by_update k = true.
Proof.
  intros Hpos.
  destruct (List.filter awaited_by_update l) as [|k rest] eqn:Hf; [simpl in Hpos; lia|].
  assert (Hin : In k (List.filter awaited_by_update l)) by (rewrite Hf; by left).
  apply filter_In in Hin as [Hin Hk].
  apply list_elem_of_In, list_elem_of_lookup in Hin as [i Hi]. eauto.
Qed.

Lemma awaited_twice (l : list Suspended) (i j : nat) (k k' : Suspended) :
  i ≠ j → l !! i = Some k → l !! j = Some k' →
  awaited_by_update k = true → awaited_by_update k' = true →
  (2 ≤ length (List.filter awaited_by_update l))%nat.
Proof.
  intros Hne Hi Hj Hk Hk'.
  pose proof (Properties.awaited_delete l i k Hi) as Hd. rewrite Hk in Hd.
  assert (Hin : k' ∈ delete i l).
  { destruct (decide (j < i)%nat).
    - eapply list_elem_of_lookup_2. rewrite list_lookup_delete_lt; done.
    - destruct j as [|j]; [lia|].
      eapply (list_elem_of_lookup_2 _ j). rewrite list_lookup_delete_ge by lia. done. }
  assert (Hpos : (0 < length (List.filter awaited_by_update (delete i l)))%nat).
  { assert (Hf : In k' (List.filter awaited_by_update (delete i l))).
    { apply filter_In. split; [by apply list_elem_of_In|done]. }
    destruct (List.filter awaited_by_update (delete i l)); [destruct Hf|simpl; lia]. }
  lia.
Qed.

(** X14.  In every state reached from mounting the screen, the guard is
    busy exactly when a call awaited by [handleLocationUpdate] is suspended,
    and at most one such call is: the guard is never left busy with nothing
    to release it, and no two unlocks by proximity are in flight together. *)
Theorem guard_busy_iff_unlock_in_flight (stored : gmap string (list Z))
    (events : list Event) :
  let s := run (mount stored) events in
  (processingRef s = true
   ↔ ∃ i k, pending s !! i = Some k ∧ awaited_by_update k = true)
  ∧ (∀ i j k k',
       pending s !! i = Some k → pending s !! j = Some k' →
       awaited_by_update k = true → awaited_by_update k' = true → i = j)
  ∧ (pending s = [] → processingRef s = false).
Proof.
  intros s.
  assert (Hinv : guard_consistent s)
    by apply Properties.guard_consistent_run, Properties.guard_consistent_mount.
  unfold guard_consistent, awaited in Hinv.
  split; [split|split].
  - intros Hbusy. rewrite Hbusy in Hinv. apply awaited_found. lia.
  - intros (i & k & Hi & Hk).
    eapply Properties.guard_busy_while_awaited; [|exact Hi|exact Hk].
    apply Properties.guard_consistent_run, Properties.guard_consistent_mount.
  - intros i j k k' Hi Hj Hk Hk'.
    destruct (decide (i = j)) as [|Hne]; [done|].
    pose proof (awaited_twice _ _ _ _ _ Hne Hi Hj Hk Hk').
    destruct (processingRef s); lia.
  - intros Hnil. rewrite Hnil in Hinv. simpl in Hinv.
    by destruct (processingRef s).
Qed.

Lemma tracked_after_lookup_other (sent : list Request) (r : Request) :
  tracked_after_lookup sent → (∀ x, r ≠ post_tracking x) →
  tracked_after_lookup (sent ++ [r]).
Proof.
  intros Hsent Hr before x after Heq.
  destruct (exists_last (l := post_tracking x :: after)) as (front & final & Hlast);
    [discriminate|].
  rewrite Hlast, app_assoc in Heq. apply app_inj_tail in Heq as [Heq <-].
  destruct front as [|y front].
  - simpl in Hlast. destruct after; [|destruct after; discriminate].
    injection Hlast as Hx. by destruct (Hr x).
  - simpl in Hlast. injection Hlast as <- Hafter.
    eapply Hsent. exact Heq.
Qed.

Lemma tracked_after_lookup_post (sent : list Request) (x : Z) :
  tracked_after_lookup sent → get_location x ∈ sent →
  tracked_after_lookup (sent ++ [post_tracking x]).
Proof.
  intros Hsent Hx before y after Heq.
  destruct (exists_last (l := post_tracking y :: after)) as (front & final & Hlast);
    [discriminate|].
  rewrite Hlast, app_assoc in Heq. apply app_inj_tail in Heq as [Heq <-].
  destruct front as [|z front].
  - simpl in Hlast. destruct after; [|destruct after; discriminate].
    injection Hlast as <-. rewrite app_nil_r in Heq. by subst.
  - simpl in Hlast. injection Hlast as <- Hafter.
    eapply Hsent. exact Heq.
Qed.

Lemma lookups_sent_more (sent : list Request) (r : Request) (l : list Suspended) :
  lookups_sent sent l → lookups_sent (sent ++ [r]) l.
Proof. intros H c loc Hin. apply elem_of_app. left. by eapply H. Qed.

Lemma lookups_sent_delete (sent : list Request) (l : list Suspended) (i : nat) :
  lookups_sent sent l → lookups_sent sent (delete i l).
Proof. intros H c loc Hin. eapply H, list_elem_of_delete_inv, Hin. Qed.

Lemma lookups_sent_app (sent : list Request) (l : list Suspended) (k : Suspended) :
  lookups_sent sent l →
  (∀ c loc, k = Visit_updateLocationVisit c loc → get_location (id loc) ∈ sent) →
  lookups_sent sent (l ++ [k]).
Proof.
  intros H Hk c loc Hin.
  apply elem_of_app in Hin as [Hin|Hin]; [by eapply H|].
  apply list_elem_of_singleton in Hin. by eapply Hk.
Qed.

Lemma lookups_sent_insert (sent : list Request) (l : list Suspended) (i : nat)
    (k : Suspended) :
  lookups_sent sent l →
  (∀ c loc, k = Visit_updateLocationVisit c loc → get_location (id loc) ∈ sent) →
  lookups_sent sent (<[i := k]> l).
Proof.
  intros H Hk c loc Hin.
  apply list_elem_of_lookup in Hin as [j Hj].
  destruct (decide (i = j)) as [->|Hne].
  - destruct (decide (j < length l)%nat) as [Hlt|Hge].
    + rewrite list_lookup_insert_eq in Hj by done. injection Hj as Hj. by eapply Hk.
    + rewrite list_insert_ge in Hj by lia. eapply H, list_elem_of_lookup_2, Hj.
  - rewrite list_lookup_insert_ne in Hj by done. eapply H, list_elem_of_lookup_2, Hj.
Qed.

Lemma requests_order_step (s : State) (e : Event) :
  tracked_after_lookup (requests s) ∧ lookups_sent (requests s) (pending s) →
  tracked_after_lookup (requests (step s e))
  ∧ lookups_sent (requests (step s e)) (pending (step s e)).
Proof.
  intros [Ht Hl].
  assert (Hdel : ∀ i, lookups_sent (requests s) (delete i (pending s)))
    by (intros; by apply lookups_sent_delete).
  step_cases s e; try (split; [assumption|]); try assumption; try apply Hdel;
    try (apply lookups_sent_app; [assumption|]; intros ? ? [=]).
  - split; [apply tracked_after_lookup_other; [assumption|intros ? [=]]|].
    apply lookups_sent_insert; [by apply lookups_sent_more|].
    intros ? ? [= _ <-]. apply elem_of_app. right. by apply list_elem_of_singleton.
  - split; [apply tracked_after_lookup_other; [assumption|intros ? [=]]|].
    apply lookups_sent_insert; [by apply lookups_sent_more|].
    intros ? ? [= _ <-]. apply elem_of_app. right. by apply list_elem_of_singleton.
  - split; [apply tracked_after_lookup_post; [assumption|]|].
    + eapply Hl, list_elem_of_lookup_2, Hk.
    + apply lookups_sent_insert; [by apply lookups_sent_more|]. intros ? ? [=].
  - split; [apply tracked_after_lookup_post; [assumption|]|].
    + eapply Hl, list_elem_of_lookup_2, Hk.
    + apply lookups_sent_insert; [by apply lookups_sent_more|]. intros ? ? [=].
  - split; [apply tracked_after_lookup_other; [assumption|intros ? [=]]|].
    apply lookups_sent_app; [apply lookups_sent_more, Hdel|]. intros ? ? [=].
  - split; [apply tracked_after_lookup_other; [assumption|intros ? [=]]|].
    apply lookups_sent_insert; [by apply lookups_sent_more|]. intros ? ? [=].
  - apply lookups_sent_insert; [assumption|]. intros ? ? [=].
Qed.

(** X15.  In every state reached from mounting the screen, each tracking
    request sent to the backend comes after a request for the location it
    tracks: no visit is recorded before the location has been looked up. *)
Theorem tracking_follows_lookup (stored : gmap string (list Z)) (events : list Event) :
  let s := run (mount stored) events in
  ∀ before x after,
    requests s = before ++ post_tracking x :: after → get_location x ∈ before.
Proof.
  intros s.
  enough (H : tracked_after_lookup (requests s) ∧ lookups_sent (requests s) (pending s))
    by apply H.
  subst s.
  assert (H0 : tracked_after_lookup (requests (mount stored))
               ∧ lookups_sent (requests (mount stored)) (pending (mount stored))).
  { split.
    - intros before x after Heq. cbn in Heq.
      destruct before as [|? [|? ?]]; discriminate.
    - intros c loc Hin. cbn in Hin. apply list_elem_of_singleton in Hin. discriminate. }
  revert H0. generalize (mount stored).
  induction events as [|e events IH]; intros s0 H0; [exact H0|].
  rewrite Properties.run_cons. apply IH. by apply requests_order_step.
Qed.

(** *** The map screen *)

Lemma within_50_within_100 (d : JS.number) :
  JS.le d Screen.PROXIMITY_RADIUS = true → JS.le d MapViewScreen.PROXIMITY_RADIUS = true.
Proof.
  destruct d as [|[|]|q]; simpl; try done.
  rewrite !Qle_bool_iff. intros H. eapply Qle_trans; [exact H|]. discriminate.
Qed.

Lemma falsy_not_null (v : JS.value) : JS.falsy v = false → JS.loosely_null v = false.
Proof. by destruct v. Qed.

(** X16.  A location that the home screen is about to unlock from a position
    is drawn by the map screen, from the same position, within its radius
    (the pin is blue, or green when already listed as unlocked), unless one of
    its coordinates is 0, in which case the map does not draw it at all. *)
Theorem map_highlights_what_home_unlocks (visited : gset Z) (here : Coordinates)
    (unlocked : list Location) (loc : Location) :
  eligible visited here loc = true →
  (JS.falsy (latitude loc) = false ∧ JS.falsy (longitude loc) = false →
   ∃ m, MapViewScreen.renderMarker getDistance here unlocked loc = Some m
        ∧ MapViewScreen.isWithinRadius m = true
        ∧ MapViewScreen.pinColor m ≠ MapViewScreen.red)
  ∧ (JS.falsy (latitude loc) = true ∨ JS.falsy (longitude loc) = true →
     MapViewScreen.renderMarker getDistance here unlocked loc = None).
Proof.
  intros Hel. unfold Screen.eligible in Hel. apply andb_true_iff in Hel as [_ Hd].
  unfold MapViewScreen.renderMarker. destruct here as [la lo]. cbn [latitude longitude] in *.
  split.
  - intros [-> ->]. cbn [orb]. eexists. split; [reflexivity|].
    cbn [MapViewScreen.isWithinRadius MapViewScreen.pinColor].
    rewrite (within_50_within_100 _ Hd). split; [reflexivity|].
    by destruct (existsb _ _).
  - intros [-> | ->]; [reflexivity|]. by rewrite orb_true_r.
Qed.

(** X17.  Every location that the map screen draws has coordinates that the
    loop of the home screen accepts, so the home screen computes the distance
    to it while it is not visited.  The converse fails for a coordinate that
    is [NaN] or 0: the map leaves such a location out, the home screen
    measures it. *)
Theorem map_draws_less_than_home_measures (visited : gset Z) (here : Coordinates)
    (unlocked : list Location) (loc : Location) :
  id loc ∉ visited →
  (MapViewScreen.renderMarker getDistance here unlocked loc ≠ None →
   measurable visited loc = true)
  ∧ (∀ n m,
       latitude loc = JS.Num n → longitude loc = JS.Num m →
       JS.falsy (JS.Num n) = true ∨ JS.falsy (JS.Num m) = true →
       MapViewScreen.renderMarker getDistance here unlocked loc = None
       ∧ measurable visited loc = true).
Proof.
  intros Hnew. unfold measurable, has, MapViewScreen.renderMarker.
  rewrite (bool_decide_eq_false_2 _ Hnew). cbn [orb]. split.
  - destruct (JS.falsy (latitude loc)) eqn:Hla; [done|].
    destruct (JS.falsy (longitude loc)) eqn:Hlo; [done|]. intros _.
    by rewrite (falsy_not_null _ Hla), (falsy_not_null _ Hlo).
  - intros n m -> -> Hf. cbn [JS.loosely_null orb negb]. split; [|reflexivity].
    destruct Hf as [-> | ->]; [reflexivity|]. by rewrite orb_true_r.
Qed.

(** Evaluates the record updates of the map screen. *)
Ltac map_fields :=
  cbv beta iota zeta
    delta [MapViewScreen.fetchData_catch MapViewScreen.fetchData_finally
           MapViewScreen.setLocation MapViewScreen.setErrorMsg
           MapViewScreen.setUnlockedLocations MapViewScreen.setAllLocations
           MapViewScreen.setLoading MapViewScreen.alert
           MapViewScreen.location MapViewScreen.errorMsg
           MapViewScreen.unlockedLocations MapViewScreen.allLocations
           MapViewScreen.loading MapViewScreen.alerts].

Lemma listed_as_unlocked (array : list Z) (ls : list Location) (loc : Location) :
  loc ∈ ls →
  existsb (fun unlockedLoc : Location => id unlockedLoc =? id loc)
    (List.filter (fun l : Location => includes array (id l)) ls)
  = includes array (id loc).
Proof.
  intros Hin. apply eq_true_iff_eq. rewrite existsb_exists. split.
  - intros (u & Hu & Heq). apply filter_In in Hu as [_ Hu].
    apply Z.eqb_eq in Heq. by rewrite <- Heq.
  - intros Hinc. exists loc. split; [|apply Z.eqb_refl].
    apply filter_In. split; [by apply list_elem_of_In|exact Hinc].
Qed.

(** X18.  When the four awaits of the map screen's [fetchData] succeed and
    the screen has kept the focus until the stored array is read, the unlocked
    locations are exactly the fetched locations whose identifier is in the
    stored array (none when the key is missing), so a stored identifier of no
    fetched location is dropped; and a drawn location has a green pin exactly
    when its identifier is stored.  When the screen has lost the focus by
    then, the unlocked locations are left as they were and [loading] stays
    set; the position and the locations are set only if their own awaits
    settled while the screen had the focus. *)
Theorem map_unlocked_are_stored_and_fetched (cleanup : option nat)
    (s : MapViewScreen.State) (coords : Coordinates) (fetched : list RawLocation)
    (stored : option (list Z)) :
  let array := match stored with Some array => array | None => [] end in
  let s' :=
    MapViewScreen.fetchData cleanup (Fulfilled true) (Fulfilled coords)
      (Fulfilled fetched) (Fulfilled stored) s in
  (MapViewScreen.isActive cleanup MapViewScreen.stored_settled = true →
   MapViewScreen.location s' = Some coords
   ∧ MapViewScreen.allLocations s' = List.map MapViewScreen.withCoords fetched
   ∧ MapViewScreen.loading s' = false
   ∧ MapViewScreen.alerts s' = MapViewScreen.alerts s
   ∧ (∀ loc : Location,
        loc ∈ MapViewScreen.unlockedLocations s'
        ↔ loc ∈ MapViewScreen.allLocations s' ∧ id loc ∈ array)
   ∧ (∀ (loc : Location) m,
        loc ∈ MapViewScreen.allLocations s' →
        MapViewScreen.renderMarker getDistance coords
          (MapViewScreen.unlockedLocations s') loc = Some m →
        (MapViewScreen.pinColor m = MapViewScreen.green ↔ id loc ∈ array)))
  ∧ (MapViewScreen.isActive cleanup MapViewScreen.stored_settled = false →
     MapViewScreen.unlockedLocations s' = MapViewScreen.unlockedLocations s
     ∧ MapViewScreen.loading s' = true
     ∧ MapViewScreen.alerts s' = MapViewScreen.alerts s
     ∧ MapViewScreen.location s'
       = (if MapViewScreen.isActive cleanup MapViewScreen.position_settled
          then Some coords else MapViewScreen.location s)
     ∧ MapViewScreen.allLocations s'
       = (if MapViewScreen.isActive cleanup MapViewScreen.locations_settled
          then List.map MapViewScreen.withCoords fetched
          else MapViewScreen.allLocations s)).
Proof.
  intros array s'. subst s'. split.
  - intros Hfocus.
    assert (H3 : MapViewScreen.isActive cleanup MapViewScreen.locations_settled = true)
      by (destruct cleanup as [[|[|[|[|k]]]]|]; done).
    assert (H2 : MapViewScreen.isActive cleanup MapViewScreen.position_settled = true)
      by (destruct cleanup as [[|[|[|[|k]]]]|]; done).
    unfold MapViewScreen.fetchData. rewrite Hfocus, H3, H2. map_fields.
    fold array. do 4 (split; [reflexivity|]). split.
    + intros loc. rewrite !list_elem_of_In, filter_In, <- !list_elem_of_In.
      unfold includes. by rewrite bool_decide_eq_true.
    + intros loc m Hin. unfold MapViewScreen.renderMarker.
      destruct (_ || _); [discriminate|]. intros [= <-].
      cbn [MapViewScreen.pinColor]. rewrite (listed_as_unlocked array _ loc Hin).
      unfold includes. case_bool_decide as Hid.
      * tauto.
      * split; [|tauto]. by destruct (JS.le _ _).
  - intros Hblur. unfold MapViewScreen.fetchData. rewrite Hblur.
    destruct (MapViewScreen.isActive cleanup MapViewScreen.position_settled),
             (MapViewScreen.isActive cleanup MapViewScreen.locations_settled);
      map_fields; repeat split; reflexivity.
Qed.

(** X19.  A call of the map screen's [fetchData] ends with [loading] cleared
    exactly when the permission was refused or the screen still had the focus
    when the last await of the call settled; otherwise [loading] stays set.
    The call replaces the unlocked locations only when all four awaits
    succeed with the focus kept; a refused permission sets the error message
    and shows no alert, and a rejected await shows the error alert, with or
    without the focus. *)
Theorem map_fetch_failures (cleanup : option nat) (granted : outcome bool)
    (loc : outcome Coordinates) (fetched : outcome (list RawLocation))
    (stored : outcome (option (list Z))) (s : MapViewScreen.State) :
  let s' := MapViewScreen.fetchData cleanup granted loc fetched stored s in
  (MapViewScreen.loading s' = false
   ↔ granted = Fulfilled false
     ∨ MapViewScreen.isActive cleanup (MapViewScreen.settled granted loc fetched) = true)
  ∧ (granted ≠ Fulfilled true ∨ loc = Rejected ∨ fetched = Rejected ∨ stored = Rejected
     ∨ MapViewScreen.isActive cleanup MapViewScreen.stored_settled = false →
     MapViewScreen.unlockedLocations s' = MapViewScreen.unlockedLocations s)
  ∧ (granted = Fulfilled false →
     MapViewScreen.alerts s' = MapViewScreen.alerts s
     ∧ MapViewScreen.errorMsg s' ≠ None
     ∧ MapViewScreen.location s' = MapViewScreen.location s
     ∧ MapViewScreen.allLocations s' = MapViewScreen.allLocations s)
  ∧ (granted = Rejected ∨ granted = Fulfilled true
                          ∧ (loc = Rejected ∨ fetched = Rejected ∨ stored = Rejected) →
     length (MapViewScreen.alerts s') = S (length (MapViewScreen.alerts s))
     ∧ MapViewScreen.errorMsg s' = MapViewScreen.errorMsg s).
Proof.
  intros s'. subst s'. split; [|split; [|split]].
  - unfold MapViewScreen.fetchData, MapViewScreen.settled.
    destruct granted as [[|]|], loc as [c|], fetched as [f|], stored as [st|];
      try (destruct (MapViewScreen.isActive cleanup MapViewScreen.position_settled));
      try (destruct (MapViewScreen.isActive cleanup MapViewScreen.locations_settled));
      try (destruct (MapViewScreen.isActive cleanup MapViewScreen.stored_settled));
      try (destruct (MapViewScreen.isActive cleanup MapViewScreen.permission_settled));
      map_fields; split; try tauto; try discriminate;
      intros [H|H]; discriminate H.
  - intros H. unfold MapViewScreen.fetchData.
    destruct granted as [[|]|], loc as [c|], fetched as [f|], stored as [st|];
      try (destruct (MapViewScreen.isActive cleanup MapViewScreen.position_settled));
      try (destruct (MapViewScreen.isActive cleanup MapViewScreen.locations_settled));
      try (destruct (MapViewScreen.isActive cleanup MapViewScreen.stored_settled));
      try (destruct (MapViewScreen.isActive cleanup MapViewScreen.permission_settled));
      map_fields; try reflexivity;
      exfalso; destruct H as [H|[H|[H|[H|H]]]]; congruence.
  - intros ->. unfold MapViewScreen.fetchData.
    destruct (MapViewScreen.isActive cleanup MapViewScreen.permission_settled);
      map_fields; repeat split; try reflexivity; discriminate.
  - intros H. unfold MapViewScreen.fetchData.
    destruct granted as [[|]|], loc as [c|], fetched as [f|], stored as [st|];
      try (destruct (MapViewScreen.isActive cleanup MapViewScreen.position_settled));
      try (destruct (MapViewScreen.isActive cleanup MapViewScreen.locations_settled));
      try (destruct (MapViewScreen.isActive cleanup MapViewScreen.stored_settled));
      try (destruct (MapViewScreen.isActive cleanup MapViewScreen.permission_settled));
      map_fields;
      first [split; [rewrite length_app; cbn [length]; lia|reflexivity]
            | exfalso; destruct H as [H|[H1 [H|[H|H]]]]; congruence].
Qed.

(** *** The list of projects *)

(** X20.  [fetchProjects] always ends with [loading] cleared.  When
    [getProjects] returns projects, the list shown holds exactly them, in
    their order, whatever happens to the count requests: a project whose
    count request fails or returns no row is shown with 0 participants, and
    no alert is raised.  When it returns none or is rejected, the list is
    left as it was and one alert is raised. *)
Theorem fetchProjects_keeps_every_project (A : Type) (data : outcome (list A))
    (counts : A → outcome (list CountRow)) (s : ProjectList.State A) :
  let s' := ProjectList.fetchProjects data counts s in
  ProjectList.loading s' = false
  ∧ (∀ rows, data = Fulfilled rows → rows ≠ [] →
       List.map ProjectList.listed (ProjectList.projects s') = rows
       ∧ ProjectList.alerts s' = ProjectList.alerts s
       ∧ ∀ p, p ∈ ProjectList.projects s' →
              ProjectList.participantCount p
              = match counts (ProjectList.listed p) with
                | Fulfilled (row :: _) => participant_count row
                | _ => 0
                end)
  ∧ (data = Fulfilled [] ∨ data = Rejected →
     ProjectList.projects s' = ProjectList.projects s
     ∧ length (ProjectList.alerts s') = S (length (ProjectList.alerts s))).
Proof.
  intros s'. subst s'. destruct data as [[|row rows]|]; cbn -[List.map].
  - split; [reflexivity|]. split; [by intros ? [= <-]|].
    intros _. rewrite length_app. cbn. split; [reflexivity|lia].
  - split; [reflexivity|]. split; [|intros [?|?]; discriminate].
    assert (H : ∀ x, ProjectList.listed (ProjectList.withParticipants counts x) = x).
    { intros x. unfold ProjectList.withParticipants.
      by destruct (getParticipantCount (counts x)). }
    intros ? [= <-] _. split; [|split; [reflexivity|]].
    + rewrite List.map_map. rewrite <- (List.map_id (row :: rows)) at 2.
      apply List.map_ext. exact H.
    + intros p Hp. apply list_elem_of_In, in_map_iff in Hp as (x & <- & _).
      rewrite H. unfold ProjectList.withParticipants, getParticipantCount.
      by destruct (counts x) as [[|? ?]|].
  - split; [reflexivity|]. split; [discriminate|].
    intros _. rewrite length_app. cbn. split; [reflexivity|lia].
Qed.

End WithScreen.

(** ** The further properties on the sample project *)

Import Fixtures Samples.

(** ["(49)"] has no comma: the latitude is a number and the longitude is
    [undefined]. *)
Lemma parsePositionString_shape_sample :
  "(49)"%string ≠ ""%string
  ∧ commas "(49)" = 0%nat
  ∧ longitude (parsePositionString (Some "(49)"%string)) = JS.Undefined.
Proof.
  assert (Hs : "(49)"%string ≠ ""%string) by discriminate.
  assert (Hc : commas "(49)" = 0%nat) by reflexivity.
  split; [exact Hs|]. split; [exact Hc|].
  exact (proj1 (proj2 (parsePositionString_shape "(49)" Hs)) Hc).
Defined.

(** The unplaced location is not unlocked from a device standing on it. *)
Lemma positionless_location_excluded_sample :
  (∃ s, location_position unplaced = Some s ∧ commas s = 0%nat)
  ∧ hit (Screen.scan gridDistance ∅ (at_grid 49 0) [withCoords unplaced])
    ≠ Some (withCoords unplaced).
Proof.
  assert (H : ∃ s, location_position unplaced = Some s ∧ commas s = 0%nat)
    by (exists "(49)"%string; split; reflexivity).
  split; [exact H|].
  exact (proj2 (positionless_location_excluded gridDistance unplaced
                  (or_intror (or_intror H)) ∅ (at_grid 49 0) [withCoords unplaced])).
Defined.

(** Fountain visited in a project scored by sequence: 1 of 2. *)
Lemma earned_at_most_possible_sample :
  scoring_mode (project_with "Sequence") = Some Sequence
  ∧ ∃ earned possible,
      getTotalPoints (Fulfilled [project_with "Sequence"]) (Fulfilled [fountain; library])
        [1] = Fulfilled earned
      ∧ getTotalPossiblePoints (Fulfilled [project_with "Sequence"])
          (Fulfilled [fountain; library]) = Fulfilled possible
      ∧ 0 ≤ earned ≤ possible.
Proof.
  split; [reflexivity|].
  apply (earned_at_most_possible (project_with "Sequence") [] [fountain; library] [1]).
  - discriminate.
  - intros _. split.
    + apply NoDup_singleton.
    + intros x Hx. apply list_elem_of_In in Hx. destruct Hx as [<-|[]].
      apply (bool_decide_unpack _). vm_compute. exact I.
Defined.

(** An array that repeats an identifier earns more than is possible in a
    project scored by sequence: 3 of 1. *)
Lemma repeated_identifier_earns_more :
  getTotalPoints (Fulfilled [project_with "Sequence"]) (Fulfilled [fountain]) [1; 1; 1]
  = Fulfilled 3
  ∧ getTotalPossiblePoints (Fulfilled [project_with "Sequence"]) (Fulfilled [fountain])
    = Fulfilled 1.
Proof. split; vm_compute; reflexivity. Qed.

(** Fountain and library visited, tower not: between 0 and 22. *)
Lemma screen_points_bounds_sample :
  0 ≤ calculatePoints (List.map withCoords [fountain; library; tower]) {[ 1; 2 ]}
    ≤ totalPossiblePoints [fountain; library; tower].
Proof.
  apply (screen_points_bounds [fountain; library; tower] {[ 1; 2 ]}).
  intros l Hl. apply list_elem_of_In in Hl.
  destruct Hl as [<-|[<-|[<-|[]]]]; vm_compute; discriminate.
Defined.

(** Unlocking the fountain on the loaded screen adds its 10 points. *)
Lemma unlock_adds_its_points_sample :
  let s := loaded [fountain; library] in
  NoDup (List.map id [fountain; library])
  ∧ points (handleLocationVisit Direct s (withCoords fountain))
    = points s + or_zero (score_points fountain).
Proof.
  intros s.
  assert (Hnd : NoDup (List.map id [fountain; library]))
    by (apply (bool_decide_unpack _); vm_compute; exact I).
  split; [exact Hnd|].
  apply (proj1 (unlock_adds_its_points gridDistance "7" s [fountain; library] fountain
                  eq_refl Hnd (list_elem_of_here _ _) eq_refl (not_elem_of_empty _))).
Defined.

(** The fountain, unlocked and stored, is visited after a restart. *)
Lemma unlock_survives_restart_sample :
  let s := loaded [fountain] in
  let written :=
    Screen.run gridDistance "7" (handleLocationVisit Direct s (withCoords fountain))
      [SetItemSettled (length (pending s)) true] in
  let restarted :=
    Screen.run gridDistance "7" (Screen.mount "7" (storage written))
      [GetProjectSettled 0 (Fulfilled [project_with "Points"]);
       GetLocationsSettled 0 (Fulfilled [fountain]);
       GetItemSettled 0 true;
       Commit] in
  (id (withCoords fountain) ∉ visitedLocationsRef s)
  ∧ visitedLocations restarted = visitedLocationsRef s ∪ {[ id (withCoords fountain) ]}.
Proof.
  intros s written restarted.
  assert (Hnew : id (withCoords fountain) ∉ visitedLocationsRef s)
    by apply not_elem_of_empty.
  split; [exact Hnew|].
  exact (proj1 (unlock_survives_restart gridDistance "7" Direct s (withCoords fountain)
                  (project_with "Points") [] [fountain] Hnew)).
Defined.

(** The storage write of the fountain's unlock fails. *)
Lemma storage_failure_keeps_memory_sample :
  let s := loaded [fountain] in
  let s' :=
    Screen.run gridDistance "7"
      (handleLocationVisit FromLocationUpdate s (withCoords fountain))
      [SetItemSettled (length (pending s)) false] in
  (id (withCoords fountain) ∉ visitedLocationsRef s)
  ∧ visitedLocations s' = visitedLocationsRef s ∪ {[ id (withCoords fountain) ]}
  ∧ visitedLocationsRef s' = visitedLocationsRef s ∪ {[ id (withCoords fountain) ]}
  ∧ storage s' = storage s.
Proof.
  intros s s'.
  assert (Hnew : id (withCoords fountain) ∉ visitedLocationsRef s)
    by apply not_elem_of_empty.
  pose proof (storage_failure_keeps_memory gridDistance "7" FromLocationUpdate s
                (withCoords fountain) Hnew) as H.
  split; [exact Hnew|].
  split; [exact (proj1 H)|]. split; [exact (proj1 (proj2 H))|].
  exact (proj1 (proj2 (proj2 H))).
Defined.

(** A position update that unlocks the fountain keeps state and ref equal. *)
Lemma state_and_ref_agree_sample :
  let s := loaded [fountain; library] in
  visitedLocations s = visitedLocationsRef s
  ∧ visitedLocations (Screen.step gridDistance "7" s (PositionUpdate origin))
    = visitedLocationsRef (Screen.step gridDistance "7" s (PositionUpdate origin)).
Proof.
  intros s. split; [reflexivity|].
  apply (state_and_ref_agree gridDistance "7" s (PositionUpdate origin)).
  - intros i. discriminate.
  - reflexivity.
Defined.

(** The same update only adds to the ref. *)
Lemma visited_ref_grows_sample :
  let s := loaded [fountain; library] in
  visitedLocationsRef s
  ⊆ visitedLocationsRef (Screen.step gridDistance "7" s (PositionUpdate origin)).
Proof.
  intros s.
  apply (visited_ref_grows gridDistance "7" s (PositionUpdate origin)).
  - discriminate.
  - intros i. discriminate.
Defined.

(** The entry of project 8 is untouched by a storage write of project 7. *)
Lemma storage_of_other_projects_kept_sample :
  let s :=
    Screen.run gridDistance "7" (loaded [fountain]) [PositionUpdate origin] in
  "visitedLocations_8"%string ≠ Screen.storageKey "7"
  ∧ storage (Screen.step gridDistance "7" s (SetItemSettled 0 true))
      !! "visitedLocations_8"%string
    = storage s !! "visitedLocations_8"%string.
Proof.
  intros s.
  assert (Hkey : "visitedLocations_8"%string ≠ Screen.storageKey "7") by discriminate.
  split; [exact Hkey|].
  exact (proj1 (storage_of_other_projects_kept gridDistance "7" s (SetItemSettled 0 true)
                  "visitedLocations_8" Hkey)).
Defined.

(** In the session that unlocks the fountain, the tracking request for 1
    follows the request for location 1. *)
Lemma tracking_follows_lookup_sample :
  let s := Screen.run gridDistance "7" (Screen.mount "7" ∅) fountain_session in
  requests s
  = [get_project "7"; get_locations "7"; get_location 1] ++ post_tracking 1 :: []
  ∧ get_location 1 ∈ [get_project "7"; get_locations "7"; get_location 1].
Proof.
  intros s.
  assert (Hreq : requests s
                 = [get_project "7"; get_locations "7"; get_location 1]
                   ++ post_tracking 1 :: []) by (vm_compute; reflexivity).
  split; [exact Hreq|].
  exact (tracking_follows_lookup gridDistance "7" ∅ fountain_session _ _ _ Hreq).
Defined.

(** The bench, 40 m from the origin, is eligible at home and blue on the map. *)
Lemma map_highlights_what_home_unlocks_sample :
  Screen.eligible gridDistance ∅ origin (withCoords bench) = true
  ∧ ∃ m, MapViewScreen.renderMarker gridDistance origin [] (withCoords bench) = Some m
         ∧ MapViewScreen.isWithinRadius m = true
         ∧ MapViewScreen.pinColor m ≠ MapViewScreen.red.
Proof.
  assert (He : Screen.eligible gridDistance ∅ origin (withCoords bench) = true)
    by (vm_compute; reflexivity).
  split; [exact He|].
  apply (proj1 (map_highlights_what_home_unlocks gridDistance ∅ origin []
                  (withCoords bench) He)).
  split; vm_compute; reflexivity.
Defined.

(** The library, at latitude 0, is measured at home and absent from the map. *)
Lemma map_draws_less_than_home_measures_sample :
  (id (withCoords library) ∉ (∅ : gset Z))
  ∧ MapViewScreen.renderMarker gridDistance origin [] (withCoords library) = None
  ∧ measurable ∅ (withCoords library) = true.
Proof.
  assert (Hnew : id (withCoords library) ∉ (∅ : gset Z)) by apply not_elem_of_empty.
  split; [exact Hnew|].
  apply (proj2 (map_draws_less_than_home_measures gridDistance ∅ origin []
                  (withCoords library) Hnew) (JS.of_Z 0) (JS.of_Z 30)).
  - vm_compute. reflexivity.
  - vm_compute. reflexivity.
  - left. reflexivity.
Defined.

End Coverage.
